(** * notanorm: the PostgreSQL dialect (notanorm/postgres.py)

    A shallow embedding of [PostgresDb]: the type mapping tables, the DDL
    generator ([create_table], [_create_index], [drop_index_by_name]), the
    upsert clause builder ([_upsert_sql]), the connection options
    ([uri_adjust]), the catalog introspector ([model], [table_model],
    [column_model]) and the model normaliser ([simplify_model]).

    Python values that the code inspects dynamically are kept as a small sum
    type, exceptions as an error monad, and the statements handed to the
    database collaborator as a trace.  A [string] stands for a Python [str]
    whose code points are below 256, one character per code point.  The
    names the module uses without importing them ([re], [partial],
    [defaultdict], [log]) are looked up in a record of module globals, empty
    of them in the module as it is. *)

From Stdlib Require Import ZArith List String Ascii Bool Lia DecimalString.
From Stdlib Require Import Permutation.
Import ListNotations.

Local Open Scope string_scope.
Local Open Scope list_scope.

(* ================================================================== *)
(** ** Python values, exceptions and dictionaries *)
(* ================================================================== *)

Module Py.

(** The literals that reach this code as column defaults, catalog flags and
    statement parameters. *)
Inductive pyval : Type :=
| PNone
| PBool (b : bool)
| PInt (z : Z)
| PStr (s : string).

(** Python truthiness. *)
Definition truthy (v : pyval) : bool :=
  match v with
  | PNone => false
  | PBool b => b
  | PInt z => negb (Z.eqb z 0)
  | PStr s => negb (String.eqb s EmptyString)
  end.

(** [x and y] *)
Definition py_and (x y : pyval) : pyval := if truthy x then y else x.

(** Truthiness of an optional integer ([None] and [0] are false). *)
Definition truthy_int (o : option Z) : bool :=
  match o with
  | None => false
  | Some z => negb (Z.eqb z 0)
  end.

Inductive exn : Type :=
| TypeError (msg : string)
| ValueError (msg : string)
| IndexError
| KeyError
| StopIteration
| AssertionError (msg : string)
| SchemaError (msg : string)
| UnboundLocalError (var : string)
| NameError (name : string).

Inductive result (A : Type) : Type :=
| Ok (a : A)
| Raise (e : exn).
Arguments Ok {A} a.
Arguments Raise {A} e.

Definition bind {A B} (r : result A) (k : A -> result B) : result B :=
  match r with
  | Ok a => k a
  | Raise e => Raise e
  end.

(** A [for] loop whose body may raise: the first exception ends it. *)
Fixpoint mapM {A B} (f : A -> result B) (l : list A) : result (list B) :=
  match l with
  | [] => Ok []
  | x :: r =>
      bind (f x) (fun y => bind (mapM f r) (fun ys => Ok (y :: ys)))
  end.

(** A [for] loop that updates a state and may raise. *)
Fixpoint foldM {A S} (f : S -> A -> result S) (l : list A) (s : S) : result S :=
  match l with
  | [] => Ok s
  | x :: r => bind (f s x) (fun s' => foldM f r s')
  end.

(** Dictionaries keep insertion order; a key is stored once. *)
Section Dict.
Context {K V : Type} (eqb : K -> K -> bool).

Fixpoint dict_get (d : list (K * V)) (k : K) : option V :=
  match d with
  | [] => None
  | (k', v) :: r => if eqb k' k then Some v else dict_get r k
  end.

(** [d[k] = v]: overwrite in place, or append a new key. *)
Fixpoint dict_set (d : list (K * V)) (k : K) (v : V) : list (K * V) :=
  match d with
  | [] => [(k, v)]
  | (k', v') :: r =>
      if eqb k' k then (k', v) :: r else (k', v') :: dict_set r k v
  end.

Definition dict_contains (d : list (K * V)) (k : K) : bool :=
  match dict_get d k with Some _ => true | None => false end.

(** [d[k]] *)
Definition dict_getitem (d : list (K * V)) (k : K) : result V :=
  match dict_get d k with Some v => Ok v | None => Raise KeyError end.

(** [d.get(k, dflt)] *)
Definition dict_get_default (d : list (K * V)) (k : K) (dflt : V) : V :=
  match dict_get d k with Some v => v | None => dflt end.
End Dict.

(** [str(n)] for an integer. *)
Definition str_of_int (z : Z) : string := NilZero.string_of_int (Z.to_int z).

(** [type(v).__name__] *)
Definition type_name (v : pyval) : string :=
  match v with
  | PNone => "NoneType"
  | PBool _ => "bool"
  | PInt _ => "int"
  | PStr _ => "str"
  end.

(** [sep.join(xs)]: every element has to be a [str]; the first one that is
    not is reported with its position. *)
Fixpoint all_str_from (i : nat) (xs : list pyval) : result (list string) :=
  match xs with
  | [] => Ok []
  | PStr s :: r => bind (all_str_from (S i) r) (fun ss => Ok (s :: ss))
  | v :: _ =>
      Raise (TypeError ("sequence item " ++ str_of_int (Z.of_nat i)
                          ++ ": expected str instance, " ++ type_name v
                          ++ " found"))
  end.

Definition all_str (xs : list pyval) : result (list string) := all_str_from 0 xs.

Definition str_join (sep : string) (xs : list pyval) : result string :=
  bind (all_str xs) (fun ss => Ok (String.concat sep ss)).

(** [s in t] for strings: substring test. *)
Fixpoint starts_with (p s : string) : bool :=
  match p, s with
  | EmptyString, _ => true
  | String a p', String b s' => Ascii.eqb a b && starts_with p' s'
  | String _ _, EmptyString => false
  end.

Fixpoint str_contains (p s : string) : bool :=
  starts_with p s ||
  match s with
  | EmptyString => false
  | String _ s' => str_contains p s'
  end.

(** [s.split(sep)] for a one-character separator: there is always at least
    one piece. *)
Fixpoint str_split (sep : ascii) (s : string) : list string :=
  match s with
  | EmptyString => [EmptyString]
  | String c r =>
      if Ascii.eqb c sep then EmptyString :: str_split sep r
      else match str_split sep r with
           | h :: t => String c h :: t
           | [] => [String c EmptyString]
           end
  end.

(** White space as [str.strip()] sees it, among the code points below 256:
    tab to carriage return, the four separators 28 to 31, the space, the next
    line control (133) and the no-break space (160). *)
Definition is_space (c : ascii) : bool :=
  let n := nat_of_ascii c in
  ((9 <=? n)%nat && (n <=? 13)%nat)
  || ((28 <=? n)%nat && (n <=? 31)%nat)
  || (n =? 32)%nat || (n =? 133)%nat || (n =? 160)%nat.

Fixpoint lstrip (s : string) : string :=
  match s with
  | EmptyString => EmptyString
  | String c r => if is_space c then lstrip r else s
  end.

Fixpoint rstrip (s : string) : string :=
  match s with
  | EmptyString => EmptyString
  | String c r =>
      match rstrip r with
      | EmptyString => if is_space c then EmptyString else String c EmptyString
      | r' => String c r'
      end
  end.

(** [s.strip()] *)
Definition str_strip (s : string) : string := rstrip (lstrip s).

End Py.
Import Py.

Declare Scope py_scope.
Notation "x <- e ;; k" := (bind e (fun x => k))
  (at level 61, e at next level, right associativity) : py_scope.
Local Open Scope py_scope.

(* ================================================================== *)
(** ** psycopg2.sql: composable SQL fragments *)
(* ================================================================== *)

Module sql.

#[local] Set Warnings "-register-all".

(** [SQL] wraps raw statement text; [Identifier] wraps names that are quoted
    when the statement is rendered; [Composed] is a sequence of fragments. *)
Inductive Composable : Type :=
| SQL (s : string)
| Identifier (strings : list string)
| Composed (seq : list Composable).

(** [sql.Identifier(v)]: the constructor only accepts strings. *)
Definition mkIdentifier (v : pyval) : result Composable :=
  match v with
  | PStr s => Ok (Identifier [s])
  | _ => Raise (TypeError "SQL identifier parts must be strings")
  end.

(** [a + b] on two composables: [Composed] operands are spliced. *)
Definition add (a b : Composable) : Composable :=
  match a, b with
  | Composed xs, Composed ys => Composed (xs ++ ys)
  | Composed xs, _ => Composed (xs ++ [b])
  | _, Composed ys => Composed (a :: ys)
  | _, _ => Composed [a; b]
  end.

(** [SQL(sep).join(seq)] *)
Fixpoint intersperse (sep : Composable) (l : list Composable) : list Composable :=
  match l with
  | [] => []
  | [x] => [x]
  | x :: r => x :: sep :: intersperse sep r
  end.

Definition join (sep : string) (l : list Composable) : Composable :=
  Composed (intersperse (SQL sep) l).

(** [SQL(tmpl).format( *args )] for templates whose only replacement fields
    are the auto-numbered [{}] (all templates of this module are); a brace
    used otherwise is a [ValueError]. *)
Definition flush (pre : string) (rv : list Composable) : list Composable :=
  match pre with
  | EmptyString => rv
  | _ => SQL pre :: rv
  end.

Fixpoint format_go (tmpl pre : string) (args : list Composable)
  : result (list Composable) :=
  match tmpl with
  | EmptyString => Ok (flush pre [])
  | String "{" (String "}" rest) =>
      match args with
      | [] => Raise IndexError
      | a :: args' =>
          rv <- format_go rest EmptyString args' ;;
          Ok (flush pre (a :: rv))
      end
  | String "{" _ => Raise (ValueError "unsupported replacement field")
  | String "}" _ => Raise (ValueError "Single '}' encountered in format string")
  | String c rest => format_go rest (pre ++ String c EmptyString) args
  end.

Definition format (tmpl : string) (args : list Composable) : result Composable :=
  rv <- format_go tmpl EmptyString args ;;
  Ok (Composed rv).

(** Identifier quoting: wrap in double quotes, double the embedded ones. *)
Definition dquote : ascii := "034"%char.

Fixpoint escape_ident (s : string) : string :=
  match s with
  | EmptyString => EmptyString
  | String c r =>
      if Ascii.eqb c dquote
      then String dquote (String dquote (escape_ident r))
      else String c (escape_ident r)
  end.

Definition quote_ident (s : string) : string :=
  String dquote (escape_ident s ++ String dquote EmptyString).

(** [c.as_string(conn)] *)
Fixpoint as_string (c : Composable) : string :=
  match c with
  | SQL s => s
  | Identifier strings => String.concat "." (map quote_ident strings)
  | Composed seq => String.concat EmptyString (map as_string seq)
  end.

(** The raw-text fragments of a statement: everything that reaches the
    server without going through identifier quoting. *)
Fixpoint raw_parts (c : Composable) : list string :=
  match c with
  | SQL s => [s]
  | Identifier _ => []
  | Composed seq => flat_map raw_parts seq
  end.

(** The names that are rendered through identifier quoting. *)
Fixpoint quoted_names (c : Composable) : list string :=
  match c with
  | SQL _ => []
  | Identifier strings => strings
  | Composed seq => flat_map quoted_names seq
  end.

End sql.
Import sql.

(* ================================================================== *)
(** ** The schema model (notanorm/model.py) *)
(* ================================================================== *)

(** Modelled from the spec: notanorm/model.py is not among the sources; the
    enum and the records below follow section 3 (DATA MODEL) and the field
    names postgres.py uses. *)
Inductive DbType : Type :=
| TEXT | BLOB | INTEGER | BOOLEAN | FLOAT | DOUBLE | ANY.

Definition DbType_eqb (a b : DbType) : bool :=
  match a, b with
  | TEXT, TEXT | BLOB, BLOB | INTEGER, INTEGER | BOOLEAN, BOOLEAN
  | FLOAT, FLOAT | DOUBLE, DOUBLE | ANY, ANY => true
  | _, _ => false
  end.

(** Modelled from the spec: [DbColCustomInfo(dialect, info)]. *)
Record DbColCustomInfo : Type := mkCustom {
  dialect : string;
  info : string
}.

(** Modelled from the spec: a column.  [size] is an optional integer,
    [default] an optional literal; [autoinc] is a flag, kept as a Python value
    because the introspector stores the catalog's three-valued answer in it. *)
Record DbCol : Type := mkCol {
  name : string;
  typ : DbType;
  autoinc : pyval;
  size : option Z;
  notnull : bool;
  fixed : bool;
  default : pyval;
  custom : option DbColCustomInfo
}.

(** Modelled from the spec: [DbIndexField(name, prefix_len)]. *)
Record DbIndexField : Type := mkField {
  fname : string;
  prefix_len : option Z
}.

(** Modelled from the spec: an index; [iname] is the optional index name. *)
Record DbIndex : Type := mkIndex {
  fields : list DbIndexField;
  unique : bool;
  primary : bool;
  iname : option string
}.

(** Modelled from the spec: a table.  [indexes] is a Python set; the list
    gives its elements in the order iteration visits them. *)
Record DbTable : Type := mkTable {
  columns : list DbCol;
  indexes : list DbIndex
}.

(** A [DbModel] is a dict from table name to table, in insertion order. *)
Definition DbModel : Type := list (string * DbTable).

(** A dict holds each key once. *)
Definition is_dict {V} (d : list (string * V)) : Prop := NoDup (map fst d).

(* ================================================================== *)
(** ** The database collaborator *)
(* ================================================================== *)

(** Statements handed to [query]/[execute] are recorded in order; a call
    either returns or raises, and keeps the trace in both cases.  Failures
    reported by the server belong to the collaborator and are not modelled:
    a statement that is sent is taken to run. *)
Definition trace : Type := list Composable.
Definition db (A : Type) : Type := trace -> result A * trace.

Definition db_ret {A} (a : A) : db A := fun tr => (Ok a, tr).
Definition db_raise {A} (e : exn) : db A := fun tr => (Raise e, tr).
Definition db_bind {A B} (m : db A) (k : A -> db B) : db B :=
  fun tr =>
    match m tr with
    | (Ok a, tr') => k a tr'
    | (Raise e, tr') => (Raise e, tr')
    end.
Definition db_lift {A} (r : result A) : db A :=
  match r with Ok a => db_ret a | Raise e => db_raise e end.

(** [self.query(stmt)] and [self.execute(stmt)]: the statement is sent. *)
Definition query (stmt : Composable) : db unit := fun tr => (Ok tt, tr ++ [stmt]).
Definition execute (stmt : Composable) : db unit := fun tr => (Ok tt, tr ++ [stmt]).

(* ================================================================== *)
(** ** The standard [re] module, on the patterns of this file *)
(* ================================================================== *)

Module Re.

Fixpoint strip_prefix (p s : string) : option string :=
  match p, s with
  | EmptyString, _ => Some s
  | String a p', String b s' =>
      if Ascii.eqb a b then strip_prefix p' s' else None
  | String _ _, EmptyString => None
  end.

(** [\d]: among the code points below 256 the decimal digits are [0] to
    [9]. *)
Definition is_digit (c : ascii) : bool :=
  let n := nat_of_ascii c in (48 <=? n)%nat && (n <=? 57)%nat.

(** The longest run of digits at the head of [s], and what follows it. *)
Fixpoint take_digits (s : string) : string * string :=
  match s with
  | EmptyString => (EmptyString, EmptyString)
  | String c r =>
      if is_digit c
      then let '(ds, rest) := take_digits r in (String c ds, rest)
      else (EmptyString, s)
  end.

(** One alternative of [(alt1|alt2|...)\((\d+)\)] at the start of [s]:
    the groups 1 and 2 of the match.  [\d+] is greedy, and the closing
    parenthesis, not being a digit, can only follow the whole run. *)
Definition match_alt (alt s : string) : option (string * string) :=
  match strip_prefix alt s with
  | Some (String "(" r) =>
      match take_digits r with
      | (String d ds, String ")" _) => Some (alt, String d ds)
      | _ => None
      end
  | _ => None
  end.

(** [re.match] of the alternation: alternatives are tried left to right. *)
Fixpoint match_sized (alts : list string) (s : string) : option (string * string) :=
  match alts with
  | [] => None
  | alt :: r =>
      match match_alt alt s with
      | Some m => Some m
      | None => match_sized r s
      end
  end.

(** [int(ds)] for a string of digits. *)
Definition digit_val (c : ascii) : Z := Z.of_nat (nat_of_ascii c - 48).

Fixpoint int_of_digits_from (acc : Z) (ds : string) : Z :=
  match ds with
  | EmptyString => acc
  | String c r => int_of_digits_from (acc * 10 + digit_val c)%Z r
  end.

Definition int_of_digits (ds : string) : Z := int_of_digits_from 0%Z ds.

Definition newline : ascii := "010"%char.

(** The lazy [(.*?)\)] from a position just after an opening parenthesis:
    the text up to the first closing one; [.] does not match a newline. *)
Fixpoint until_close (s : string) : option string :=
  match s with
  | EmptyString => None
  | String c r =>
      if Ascii.eqb c ")" then Some EmptyString
      else if Ascii.eqb c newline then None
      else match until_close r with
           | Some g => Some (String c g)
           | None => None
           end
  end.

(** [re.search(r"\((.*?)\)", s)]: group 1 of the leftmost match. *)
Fixpoint search_paren (s : string) : option string :=
  match s with
  | EmptyString => None
  | String c r =>
      if Ascii.eqb c "(" then
        match until_close r with
        | Some g => Some g
        | None => search_paren r
        end
      else search_paren r
  end.

End Re.

(* ================================================================== *)
(** ** The module namespace *)
(* ================================================================== *)

(** What the code asks of [re]: [re.match(pattern, s)] and
    [re.search(pattern, s)], each giving the groups 1, 2, ... of the match,
    or nothing. *)
Record re_module : Type := mkRe {
  re_match : string -> string -> option (list string);
  re_search : string -> string -> option (list string)
}.

(** postgres.py imports psycopg2, [sql], [DbBase], [parse_bool], the model
    types and [err].  It also reads four global names that no import binds:
    [re], [partial], [defaultdict] and [log].  The record says which of them
    the module namespace holds, each, when present, being the standard object
    of that name. *)
Record module_globals : Type := mkGlobals {
  g_re : option re_module;
  g_partial : bool;
  g_defaultdict : bool;
  g_log : bool
}.

(** The namespace of the module as it is. *)
Definition shipped_globals : module_globals :=
  mkGlobals None false false false.

(** The read of a global name. *)
Definition global_re (g : module_globals) : result re_module :=
  match g_re g with
  | Some re => Ok re
  | None => Raise (NameError "re")
  end.

Definition global_name (bound : bool) (name : string) : result unit :=
  if bound then Ok tt else Raise (NameError name).

(** [m[n]], [m.group(n)]: group [n] of a match. *)
Definition match_group (m : list string) (n : nat) : result string :=
  match nth_error m (n - 1) with
  | Some s => Ok s
  | None => Raise IndexError
  end.

(* ================================================================== *)
(** ** class PostgresDb *)
(* ================================================================== *)

Module PostgresDb.

Definition uri_name : string := "postgres".
Definition placeholder : string := "%s".
Definition default_values : string := " DEFAULT NULL".
Definition max_index_name : nat := 63.

Definition _type_map : list (DbType * string) :=
  [ (TEXT, "text");
    (BLOB, "bytea");
    (INTEGER, "bigint");
    (BOOLEAN, "boolean");
    (FLOAT, "real");
    (DOUBLE, "double precision");
    (ANY, EmptyString) ].

(** [{v: k for k, v in _type_map.items()}] *)
Definition _type_map_inverse : list (string * DbType) :=
  fold_left (fun d kv => dict_set String.eqb d (snd kv) (fst kv)) _type_map [].

Definition _type_map_custom : list (string * DbColCustomInfo) :=
  [ ("text", mkCustom "postgres" "text");
    ("bytea", mkCustom "postgres" "bytea") ].

(** The value bound to [typ] in [create_table]: the custom branch binds a
    plain [str], the others a composable. *)
Inductive typ_val : Type :=
| TStr (s : string)
| TSql (c : Composable).

(** The native type name a resolved [typ] stands for. *)
Definition native_text (t : typ_val) : string :=
  match t with
  | TStr s => s
  | TSql c => as_string c
  end.

(** [a + typ]: [Composable.__add__] answers [NotImplemented] to an operand
    that is not a composable, and [str] has no reflected addition, so a [str]
    operand is a [TypeError]. *)
Definition add_val (a : Composable) (t : typ_val) : result Composable :=
  match t with
  | TSql c => Ok (add a c)
  | TStr _ => Raise (TypeError "unsupported operand type(s) for +: 'SQL' and 'str'")
  end.

Definition pyval_of_size (o : option Z) : pyval :=
  match o with Some z => PInt z | None => PNone end.

(** [(a,) != fields] is the negation of this test. *)
Fixpoint str_tuple_eqb (a b : list string) : bool :=
  match a, b with
  | [], [] => true
  | x :: a', y :: b' => String.eqb x y && str_tuple_eqb a' b'
  | _, _ => false
  end.

(** [x in fields] *)
Definition str_in (x : string) (l : list string) : bool :=
  existsb (String.eqb x) l.

(** The scan for the primary index: the last one visited wins. *)
Definition scan_primary (idxs : list DbIndex) (primary_fields : list string)
  : list string :=
  fold_left
    (fun pf idx => if primary idx then map fname (fields idx) else pf)
    idxs primary_fields.

(** [col.custom and col.typ == DbType.TEXT and col.custom.dialect == "postgres"] *)
Definition postgres_text_custom (col : DbCol) : option DbColCustomInfo :=
  match custom col with
  | Some c =>
      if DbType_eqb (typ col) TEXT && String.eqb (dialect c) "postgres"
      then Some c else None
  | None => None
  end.

Section Self.

(** [self._int_map], [self.primary_fields] and [self.create_indexes] come
    from the base class [DbBase], which is not among the sources. *)
Variable _int_map : list (Z * string).
Variable self_primary_fields : string -> list string.
Variable self_create_indexes : string -> DbTable -> db unit.

Definition _upsert_sql (table inssql : string) (insvals : list pyval)
           (setsql : string) (setvals : list pyval)
  : result (string * list pyval) :=
  match setvals with
  | [] =>
      let fields := self_primary_fields table in
      match fields with
      | [] => Raise StopIteration
      | f0 :: _ =>
          Ok ((inssql ++ " ON CONFLICT (" ++ f0 ++ ") DO NOTHING")%string, insvals)
      end
  | _ :: _ =>
      target <- str_join ", " setvals ;;
      Ok ((inssql ++ " ON CONFLICT (" ++ target ++ ") DO UPDATE SET "
                 ++ setsql)%string,
          insvals)
  end.

(** The [if]/[elif] chain of [create_table] that binds [typ]. *)
Definition resolve_type (col : DbCol) : result typ_val :=
  match postgres_text_custom col with
  | Some c =>
      if String.eqb (info c) "text" then Ok (TStr "text")
      else if String.eqb (info c) "bytea" then Ok (TStr "bytea")
      else Raise (AssertionError "unknown custom info")
  | None =>
      if truthy_int (size col) && DbType_eqb (typ col) TEXT then
        i <- mkIdentifier (pyval_of_size (size col)) ;;
        c <- format "varchar({})" [i] ;;
        Ok (TSql c)
      else if truthy_int (size col) && DbType_eqb (typ col) BLOB then
        Ok (TSql (SQL "bytea"))
      else if truthy_int (size col) && DbType_eqb (typ col) INTEGER
              && match size col with
                 | Some z => dict_contains Z.eqb _int_map z
                 | None => false
                 end then
        s <- match size col with
             | Some z => dict_getitem Z.eqb _int_map z
             | None => Raise KeyError
             end ;;
        Ok (TSql (SQL s))
      else
        s <- dict_getitem DbType_eqb _type_map (typ col) ;;
        Ok (TSql (SQL s))
  end.

(** The body of the column loop up to the auto-increment test. *)
Definition coldef_base (col : DbCol) : result Composable :=
  let coldef := Identifier [name col] in
  typ <- resolve_type col ;;
  sp_typ <- add_val (SQL " ") typ ;;
  let coldef := add coldef sp_typ in
  let coldef := if notnull col then add coldef (SQL " NOT NULL") else coldef in
  if truthy (default col) then
    d <- mkIdentifier (default col) ;;
    Ok (add coldef (add (SQL " DEFAULT ") d))
  else Ok coldef.

(** The whole body of the column loop. *)
Definition coldef_of (primary_fields : list string) (col : DbCol)
  : result Composable :=
  coldef <- coldef_base col ;;
  if truthy (autoinc col) then
    if negb (str_tuple_eqb [name col] primary_fields) then
      Raise (SchemaError
               ("auto increment only works on primary key: " ++ name col)%string)
    else Ok (add coldef (SQL " SERIAL"))
  else Ok coldef.

(** Everything [create_table] does before it talks to the database: the
    statement it is about to send. *)
Definition create_table_stmt (name : string) (schema : DbTable)
           (ignore_existing : bool) : result Composable :=
  let primary_fields := scan_primary (indexes schema) [] in
  coldefs <- mapM (coldef_of primary_fields) (columns schema) ;;
  let keys := map (fun k => Identifier [k]) primary_fields in
  coldefs <- match keys with
             | [] => Ok coldefs
             | _ :: _ =>
                 pk <- format "PRIMARY KEY ({})" [join ", " keys] ;;
                 Ok (coldefs ++ [pk])
             end ;;
  let ignore := if ignore_existing then "IF NOT EXISTS " else EmptyString in
  format "CREATE TABLE {} ({});" [Identifier [name]; join ", " coldefs].

Definition create_table (name : string) (schema : DbTable)
           (ignore_existing create_indexes : bool) : db unit :=
  db_bind (db_lift (create_table_stmt name schema ignore_existing))
    (fun create =>
       db_bind (query create)
         (fun _ =>
            if create_indexes then self_create_indexes name schema
            else db_ret tt)).

(** One element of the field list of [_create_index]. *)
Definition index_field_sql (f : DbIndexField) : Composable :=
  match prefix_len f with
  | None => Identifier [fname f]
  | Some n => SQL (fname f ++ "(" ++ str_of_int n ++ ")")%string
  end.

Definition _create_index_stmt (table_name index_name : string) (idx : DbIndex)
  : result Composable :=
  let unique_kw := if unique idx then "UNIQUE " else EmptyString in
  format "CREATE {}INDEX {} ON {} ({})"
    [ SQL unique_kw;
      Identifier [index_name];
      Identifier [table_name];
      join ", " (map index_field_sql (fields idx)) ].

Definition _create_index (table_name index_name : string) (idx : DbIndex)
  : db unit :=
  db_bind (db_lift (_create_index_stmt table_name index_name idx)) execute.

End Self.

(** The body of the column loop of [simplify_model]: [d = col._asdict()],
    the three conditional updates, [DbCol( **d )]. *)
Definition simplify_col (primary_fields : list string) (col : DbCol) : DbCol :=
  let d := col in
  let d :=
    if DbType_eqb (typ col) INTEGER && negb (truthy_int (size col))
    then mkCol (name d) (typ d) (autoinc d) (Some 8%Z) (notnull d) (fixed d)
               (default d) (custom d)
    else d in
  let d :=
    if str_in (name col) primary_fields
    then mkCol (name d) (typ d) (autoinc d) (size d) true (fixed d)
               (default d) (custom d)
    else d in
  let d :=
    match custom col with
    | Some c =>
        if String.eqb (dialect c) "postgres"
        then mkCol (name d) (typ d) (autoinc d) (size d) (notnull d) (fixed d)
                   (default d) (custom col)
        else d
    | None => d
    end in
  d.

(** One turn of the table loop of [simplify_model].  [primary_fields] is
    assigned before the loop and only reassigned when a table has a primary
    index, so it is part of the loop's state. *)
Definition simplify_step (st : DbModel * list string) (item : string * DbTable)
  : DbModel * list string :=
  let '(model2, primary_fields) := st in
  let '(nam, tab) := item in
  let primary_fields := scan_primary (indexes tab) primary_fields in
  let cols := map (simplify_col primary_fields) (columns tab) in
  (dict_set String.eqb model2 nam (mkTable cols (indexes tab)), primary_fields).

Definition simplify_model (model : DbModel) : DbModel :=
  fst (fold_left simplify_step model ([], [])).

(** The patterns, as written in the source. *)
Definition character_pattern : string :=
  "(character varying|character|text)\((\d+)\)".
Definition bytea_pattern : string := "(bytea)\((\d+)\)".
Definition paren_pattern : string := "\((.*?)\)".

Section ColumnModel.

Variable g : module_globals.

(** The builtin [int], applied to a [str]. *)
Variable int_of_str : string -> result Z.

Definition column_model (col_name col_type is_nullable : string)
           (col_default is_auto_increment : pyval) (in_primary : bool)
  : result DbCol :=
  let size := @None Z in
  let fixed := false in
  re <- global_re g ;;
  let match_t := re_match re character_pattern col_type in
  let match_b := re_match re bytea_pattern col_type in
  typ_size <-
    match match_t with
    | Some m =>
        g2 <- match_group m 2 ;;
        n <- int_of_str g2 ;;
        Ok (TEXT, Some n)
    | None =>
        match match_b with
        | Some _ => Ok (BLOB, size)
        | None =>
            Ok (dict_get_default String.eqb _type_map_inverse col_type ANY, size)
        end
    end ;;
  let fixed := if String.eqb col_type "character" then true else fixed in
  let custom := dict_get String.eqb _type_map_custom col_type in
  let autoinc_primary := py_and (PBool in_primary) is_auto_increment in
  Ok (mkCol col_name (fst typ_size) is_auto_increment (snd typ_size)
            (String.eqb is_nullable "NO" && negb (truthy autoinc_primary))
            fixed col_default custom).

End ColumnModel.

Section UriAdjust.

Variable g : module_globals.

(** The builtin [int] and [parse_bool] of notanorm/base.py (not among the
    sources), as applied to an option value. *)
Variable py_int : pyval -> result pyval.
Variable parse_bool : string -> pyval -> result pyval.

Inductive uri_conv : Type := ConvInt | ConvBool.

(** The list the loop of [uri_adjust] runs over. *)
Definition uri_options : list (string * uri_conv) :=
  [ ("port", ConvInt);
    ("use_unicode", ConvBool);
    ("autocommit", ConvBool);
    ("pool_size", ConvInt) ].

(** [typ(kws[nam])], with [typ] replaced by [partial(parse_bool, nam)] when it
    is [bool]: the name [partial] is read first. *)
Definition uri_convert (nam : string) (typ : uri_conv) (v : pyval) : result pyval :=
  match typ with
  | ConvInt => py_int v
  | ConvBool =>
      _ <- global_name (g_partial g) "partial" ;;
      parse_bool nam v
  end.

(** The loop over the options.  [kws] is updated in place, so what was
    converted before an exception stays converted. *)
Fixpoint uri_adjust_options (opts : list (string * uri_conv))
         (kws : list (string * pyval)) : result unit * list (string * pyval) :=
  match opts with
  | [] => (Ok tt, kws)
  | (nam, typ) :: r =>
      match dict_get String.eqb kws nam with
      | Some v =>
          match uri_convert nam typ v with
          | Ok v' => uri_adjust_options r (dict_set String.eqb kws nam v')
          | Raise e => (Raise e, kws)
          end
      | None => uri_adjust_options r kws
      end
  end.

(** [uri_adjust(args, kws)]: the outcome and the two arguments as it leaves
    them. *)
Definition uri_adjust (args : list pyval) (kws : list (string * pyval))
  : result unit * (list pyval * list (string * pyval)) :=
  match uri_adjust_options uri_options kws with
  | (Ok _, kws) =>
      match args with
      | [] => (Ok tt, (args, kws))
      | a0 :: _ => (Ok tt, ([], dict_set String.eqb kws "host" a0))
      end
  | (Raise e, kws) => (Raise e, (args, kws))
  end.

End UriAdjust.

(** [drop_index_by_name] assigns to [sql], which makes the name local to the
    function; the right-hand side of that assignment reads it first. *)
Definition drop_index_by_name (table index_name : string) : db unit :=
  let sql_local : option (string -> list Composable -> result Composable) := None in
  match sql_local with
  | None => db_raise (UnboundLocalError "sql")
  | Some sql_format =>
      db_bind
        (db_lift (sql_format "DROP INDEX IF EXISTS {} ON {}"
                             [Identifier [index_name]; Identifier [table]]))
        execute
  end.

(** Modelled from the spec: equality of two optional prefix lengths, part of
    the equality of indexes (notanorm/model.py is not among the sources). *)
Definition option_Z_eqb (a b : option Z) : bool :=
  match a, b with
  | None, None => true
  | Some x, Some y => Z.eqb x y
  | _, _ => false
  end.

(** Modelled from the spec: equality of two field sequences, field by
    field (notanorm/model.py is not among the sources). *)
Fixpoint fields_eqb (a b : list DbIndexField) : bool :=
  match a, b with
  | [], [] => true
  | x :: a', y :: b' =>
      String.eqb (fname x) (fname y)
      && option_Z_eqb (prefix_len x) (prefix_len y)
      && fields_eqb a' b'
  | _, _ => false
  end.

(** Modelled from the spec: equality of two indexes (notanorm/model.py is not
    among the sources).  Two indexes are equal when their field sequences,
    uniqueness and primary flag match; the name takes no part. *)
Definition DbIndex_eqb (a b : DbIndex) : bool :=
  fields_eqb (fields a) (fields b)
  && Bool.eqb (unique a) (unique b)
  && Bool.eqb (primary a) (primary b).

(** [set(indexes)]: one index of each equality class, the first met. *)
Fixpoint index_set (idxs : list DbIndex) : list DbIndex :=
  match idxs with
  | [] => []
  | i :: r => i :: filter (fun j => negb (DbIndex_eqb i j)) (index_set r)
  end.

(** A row of the column query: [column_name], [data_type], [is_nullable],
    [column_default], [is_auto_increment]. *)
Definition column_row : Type := string * string * string * pyval * pyval.

Section TableModel.

Variable g : module_globals.
Variable int_of_str : string -> result Z.

(** The body of the first loop of [table_model], over the rows
    [(indexname, indexdef)] of the catalog: [idxunique] and [idxmap] after one
    more row. *)
Definition index_row_step
           (st : list (string * bool) * list (string * list (string * option Z)))
           (idxinfo : string * string)
  : result (list (string * bool) * list (string * list (string * option Z))) :=
  let '(idxunique, idxmap) := st in
  let indexdef := snd idxinfo in
  let unique := str_contains " UNIQUE " indexdef in
  let idxname := fst idxinfo in
  let idxunique := dict_set String.eqb idxunique idxname unique in
  re <- global_re g ;;
  match re_search re paren_pattern indexdef with
  | Some m =>
      fields_str <- match_group m 1 ;;
      let field_names := map str_strip (str_split "," fields_str) in
      Ok (idxunique,
          dict_set String.eqb idxmap idxname
                   (map (fun f => (f, @None Z)) field_names))
  | None => Ok (idxunique, idxmap)
  end.

(** The list [indexes] that [table_model] builds from the index rows. *)
Definition table_model_indexes (res : list (string * string))
  : result (list DbIndex) :=
  let idxunique : list (string * bool) := [] in
  _ <- global_name (g_defaultdict g) "defaultdict" ;;
  let idxmap : list (string * list (string * option Z)) := [] in
  st <- foldM index_row_step res (idxunique, idxmap) ;;
  let '(idxunique, idxmap) := st in
  Ok (map (fun item =>
             let name := fst item in
             let fds := snd item in
             let primary := String.eqb name "PRIMARY" in
             let unique := dict_get_default String.eqb idxunique name false in
             mkIndex (map (fun f => mkField (fst f) (snd f)) fds)
                     unique primary (Some name))
          idxmap).

(** The body of the column loop of [table_model].  It reads
    [primary_fields], a name that is bound neither in the function nor in the
    module. *)
Definition table_model_column (col : column_row) : result DbCol :=
  let '(col_name, col_type, is_nullable, col_default, is_auto_increment) := col in
  primary_fields <- @Raise (list string) (NameError "primary_fields") ;;
  let in_primary := str_in col_name primary_fields in
  column_model g int_of_str col_name col_type is_nullable col_default
               is_auto_increment in_primary.

(** [table_model], given the rows its two queries return. *)
Definition table_model (index_rows : list (string * string))
           (column_rows : list column_row) : result DbTable :=
  indexes <- table_model_indexes index_rows ;;
  cols <- mapM table_model_column column_rows ;;
  _ <- (if negb (Nat.eqb (List.length (index_set indexes)) (List.length indexes))
        then global_name (g_log g) "log"
        else Ok tt) ;;
  Ok (mkTable cols (index_set indexes)).

(** [model], given the table names its query returns and, for each table,
    the rows of the two queries of [table_model]. *)
Definition model (tabs : list string)
           (index_rows_of : string -> list (string * string))
           (column_rows_of : string -> list column_row) : result DbModel :=
  foldM (fun (ret : DbModel) tab =>
           t <- table_model (index_rows_of tab) (column_rows_of tab) ;;
           Ok (dict_set String.eqb ret tab t))
        tabs [].

End TableModel.

End PostgresDb.
Import PostgresDb.

(* ================================================================== *)
(** ** Vocabulary of the properties *)
(* ================================================================== *)

(** The standard [re] module, as far as the three patterns of this file
    go: [match] anchors at the start of the string, [search] finds the
    leftmost match; the groups are the parenthesised parts. *)
Definition std_re : re_module :=
  mkRe
    (fun pattern s =>
       if String.eqb pattern character_pattern then
         option_map (fun m => [fst m; snd m])
                    (Re.match_sized ["character varying"; "character"; "text"] s)
       else if String.eqb pattern bytea_pattern then
         option_map (fun m => [fst m; snd m]) (Re.match_sized ["bytea"] s)
       else None)
    (fun pattern s =>
       if String.eqb pattern paren_pattern then
         option_map (fun g1 => [g1]) (Re.search_paren s)
       else None).

(** A module namespace in which the four names have been bound. *)
Definition patched_globals : module_globals :=
  mkGlobals (Some std_re) true true true.

(** Every character of the string is a decimal digit. *)
Fixpoint all_digits (s : string) : bool :=
  match s with
  | EmptyString => true
  | String c r => Re.is_digit c && all_digits r
  end.


(** The builtin [int] on a run of 1 to 4300 decimal digits, the longest the
    interpreter converts under its default limit.  On any other string this
    instance answers [ValueError]; [int] does so too unless the string
    carries a sign, underscores or outer white space, forms that are not
    used below. *)
Definition int_of_decimal (s : string) : result Z :=
  if all_digits s && negb (String.eqb s EmptyString)
     && (N.of_nat (String.length s) <=? 4300)%N
  then Ok (Re.int_of_digits s)
  else Raise (ValueError "invalid literal for int() with base 10").


(** The exceptions the column loop of [create_table] can raise. *)
Definition loop_error (e : exn) : Prop :=
  (exists msg, e = TypeError msg)
  \/ (exists msg, e = AssertionError msg)
  \/ (exists msg, e = SchemaError msg).

(** The custom info the introspector attaches to the default native name of
    an abstract type. *)
Definition default_custom (t : DbType) : option DbColCustomInfo :=
  match dict_get DbType_eqb _type_map t with
  | Some native => dict_get String.eqb _type_map_custom native
  | None => None
  end.

(** The column gets through type resolution and the rendering of its type,
    [NOT NULL] and [DEFAULT] parts. *)
Definition renders (_int_map : list (Z * string)) (col : DbCol) : bool :=
  match coldef_base _int_map col with Ok _ => true | Raise _ => false end.

(** [autoinc] is set on a column that is not the one primary field. *)
Definition autoinc_misplaced (primary_fields : list string) (col : DbCol) : bool :=
  truthy (autoinc col) && negb (str_tuple_eqb [name col] primary_fields).

Definition autoinc_message (col : DbCol) : string :=
  "auto increment only works on primary key: " ++ name col.


(** The table loop of [simplify_model], with the running [primary_fields]
    made an argument: on a dict it yields the tables in their order. *)
Fixpoint simplify_tables (primary_fields : list string) (m : DbModel) : DbModel :=
  match m with
  | [] => []
  | (nam, tab) :: r =>
      let primary_fields := scan_primary (indexes tab) primary_fields in
      (nam, mkTable (map (simplify_col primary_fields) (columns tab)) (indexes tab))
        :: simplify_tables primary_fields r
  end.

(** Two tables: [accounts] has the primary key [id]; [audit_log] has no
    primary index and a nullable column that happens to be called [id]. *)
Definition accounts_table : DbTable :=
  mkTable [ mkCol "id" INTEGER (PBool true) None false false PNone None;
            mkCol "email" TEXT (PBool false) (Some 255%Z) true false PNone None ]
          [ mkIndex [mkField "id" None] true true None ].

Definition audit_log_table : DbTable :=
  mkTable [ mkCol "id" INTEGER (PBool false) (Some 8%Z) false false PNone None;
            mkCol "note" TEXT (PBool false) None false false PNone
                  (Some (mkCustom "mysql" "medium")) ]
          [].

Definition sample_model : DbModel :=
  [ ("accounts", accounts_table); ("audit_log", audit_log_table) ].

(** The fixed pieces of statement text [create_table] works with. *)
Definition ddl_keywords : list string :=
  [ "CREATE TABLE "; " ("; ");"; ", "; " "; " NOT NULL"; " DEFAULT ";
    " SERIAL"; "PRIMARY KEY ("; ")" ].

(** Raw statement text that comes from the code or from its type tables,
    not from the schema. *)
Definition raw_allowed (_int_map : list (Z * string)) (s : string) : Prop :=
  In s ddl_keywords \/ In s (map snd _type_map) \/ In s (map snd _int_map).

(** The text of a column definition, for the native type [native]. *)
Definition coldef_text (col : DbCol) (native : string) : string :=
  quote_ident (name col) ++ " " ++ native
  ++ (if notnull col then " NOT NULL" else EmptyString)
  ++ match default col with
     | PStr d =>
         if truthy (PStr d) then " DEFAULT " ++ quote_ident d else EmptyString
     | _ => EmptyString
     end
  ++ (if truthy (autoinc col) then " SERIAL" else EmptyString).

(** The identifiers a column definition quotes: its name, and its default
    when it has one. *)
Definition coldef_names (col : DbCol) : list string :=
  name col
  :: match default col with
     | PStr d => if truthy (PStr d) then [d] else []
     | _ => []
     end.

(** The text of the PRIMARY KEY clause, as a list of zero or one items. *)
Definition primary_key_text (primary_fields : list string) : list string :=
  match primary_fields with
  | [] => []
  | _ :: _ =>
      [ ("PRIMARY KEY (" ++ String.concat ", " (map quote_ident primary_fields)
           ++ ")")%string ]
  end.

(** A column that the postgres generator cannot render: TEXT with postgres
    custom info, or TEXT with a size. *)
Definition unrenderable_text (col : DbCol) : Prop :=
  typ col = TEXT
  /\ ((exists c, custom col = Some c /\ dialect c = "postgres")
      \/ truthy_int (size col) = true).

(** The text of one element of the field list of an index. *)
Definition index_field_text (f : DbIndexField) : string :=
  match prefix_len f with
  | None => quote_ident (fname f)
  | Some n => fname f ++ "(" ++ str_of_int n ++ ")"
  end.

(** The field has no prefix length. *)
Definition plain_field (f : DbIndexField) : bool :=
  match prefix_len f with None => true | Some _ => false end.


(** How a column and its normalised form are related, whatever the primary
    fields in force: only [size] and [notnull] may differ, [size] by the
    default width of an unsized INTEGER, [notnull] by being switched on. *)
Definition normalised_from (c c' : DbCol) : Prop :=
  name c' = name c /\ typ c' = typ c /\ autoinc c' = autoinc c
  /\ fixed c' = fixed c /\ default c' = default c /\ custom c' = custom c
  /\ size c'
     = (if DbType_eqb (typ c) INTEGER && negb (truthy_int (size c))
        then Some 8%Z else size c)
  /\ (notnull c = true -> notnull c' = true).

(** The same for a table and for an entry of a model. *)
Definition table_normalised_from (t t' : DbTable) : Prop :=
  indexes t' = indexes t /\ Forall2 normalised_from (columns t) (columns t').

Definition entry_normalised_from (e e' : string * DbTable) : Prop :=
  fst e' = fst e /\ table_normalised_from (snd e) (snd e').













(** Connection options without a flag among them. *)
Definition plain_kws : list (string * pyval) :=
  [ ("port", PStr "5432"); ("host", PStr "localhost"); ("user", PStr "app") ].

(** The builtin [int] on an option value: a number is kept, a string is
    read as by [int_of_decimal]. *)
Definition int_of_option (v : pyval) : result pyval :=
  match v with
  | PStr s => bind (int_of_decimal s) (fun n => Ok (PInt n))
  | PInt z => Ok (PInt z)
  | PBool b => Ok (PInt (if b then 1 else 0)%Z)
  | PNone =>
      Raise (TypeError "int() argument must be a string, a bytes-like object or a real number, not 'NoneType'")
  end.

(** At most one index of the list is primary. *)
Definition at_most_one_primary (idxs : list DbIndex) : Prop :=
  (List.length (filter primary idxs) <= 1)%nat.


(** A table that the generator renders: a serial key, a defaulted column. *)
Definition people_table : DbTable :=
  mkTable [ mkCol "id" INTEGER (PBool true) None true false PNone None;
            mkCol "nick" TEXT (PBool false) None false false (PStr "anon") None ]
          [ mkIndex [mkField "nick" None] true false (Some "ix_nick");
            mkIndex [mkField "id" None] true true None ].

(* ================================================================== *)
(** ** Introspection: nullability of a column *)
(* ================================================================== *)

(** With [re] bound, the last lines of [column_model] compute [notnull] as
    [is_nullable == "NO"], switched off for an auto-increment column of the
    primary key. *)
Lemma column_model_notnull_with_re :
  forall g int_of_str re col_name col_type is_nullable col_default
         is_auto_increment in_primary back,
    g_re g = Some re ->
    column_model g int_of_str col_name col_type is_nullable col_default
                 is_auto_increment in_primary = Ok back ->
    notnull back
    = if in_primary && truthy is_auto_increment
      then false
      else String.eqb is_nullable "NO".
Proof.
  intros g int_of_str re cn ct nl cd ai ip back Hg H.
  unfold column_model, global_re in H. rewrite Hg in H. cbn [bind] in H.
  destruct (re_match re character_pattern ct) as [m|].
  - destruct (match_group m 2) as [g2|]; [|discriminate]. cbn [bind] in H.
    destruct (int_of_str g2) as [n|]; [|discriminate]. cbn [bind] in H.
    inversion H. cbn [notnull].
    destruct ip; cbn [py_and truthy andb]; destruct (truthy ai);
      destruct (String.eqb nl "NO"); reflexivity.
  - destruct (re_match re bytea_pattern ct); cbn [bind] in H;
      inversion H; cbn [notnull];
      destruct ip; cbn [py_and truthy andb]; destruct (truthy ai);
      destruct (String.eqb nl "NO"); reflexivity.
Qed.

(** C10.  In the module as it is, [column_model] returns no [notnull] at
    all: its first statement that matters reads the global name [re], which
    nothing binds, so every call raises [NameError] before the lines that
    compute [notnull] from [is_nullable], [in_primary] and
    [is_auto_increment] are reached. *)
Theorem column_model_name_error :
  forall int_of_str col_name col_type is_nullable col_default
         is_auto_increment in_primary,
    column_model shipped_globals int_of_str col_name col_type is_nullable
                 col_default is_auto_increment in_primary
    = Raise (NameError "re").
Proof. reflexivity. Qed.

(* ================================================================== *)
(** ** The upsert clause *)
(* ================================================================== *)

Section Upsert.
Variable self_primary_fields : string -> list string.

(** With no update values the clause is DO NOTHING, keyed on the first
    primary field, and the insert values are returned as they came. *)
Lemma upsert_sql_do_nothing :
  forall table inssql insvals setsql f0 rest,
    self_primary_fields table = f0 :: rest ->
    _upsert_sql self_primary_fields table inssql insvals setsql []
    = Ok ((inssql ++ " ON CONFLICT (" ++ f0 ++ ") DO NOTHING")%string, insvals).
Proof. intros * H. unfold _upsert_sql. rewrite H. reflexivity. Qed.

(** Whatever the update values, the parameter list that comes back is the
    insert values alone. *)
Lemma upsert_sql_values :
  forall table inssql insvals setsql setvals stmt vals,
    _upsert_sql self_primary_fields table inssql insvals setsql setvals
    = Ok (stmt, vals) ->
    vals = insvals.
Proof.
  intros * H. unfold _upsert_sql in H.
  destruct setvals as [|v vs].
  - destruct (self_primary_fields table); inversion H; reflexivity.
  - destruct (str_join ", " (v :: vs)); cbn in H; inversion H; reflexivity.
Qed.

(** C5.  Upserting [id = 1, v = 'a'] with the update [v = 'a']: the conflict
    target of the clause is built from the update value ['a'], no conflict
    column is referenced, and the statement has three placeholders for the
    two values returned. *)
Theorem upsert_sql_do_update_at_input :
  _upsert_sql self_primary_fields "t"
    "INSERT INTO t (id, v) VALUES (%s, %s)" [PInt 1; PStr "a"]
    "v=%s" [PStr "a"]
  = Ok ("INSERT INTO t (id, v) VALUES (%s, %s) ON CONFLICT (a) DO UPDATE SET v=%s",
        [PInt 1; PStr "a"]).
Proof. reflexivity. Qed.

(** An update value that is not a string makes the clause builder raise. *)
Lemma upsert_sql_int_update_value :
  _upsert_sql self_primary_fields "t"
    "INSERT INTO t (id, n) VALUES (%s, %s)" [PInt 1; PInt 5]
    "n=%s" [PInt 5]
  = Raise (TypeError "sequence item 0: expected str instance, int found").
Proof. reflexivity. Qed.
End Upsert.

(* ================================================================== *)
(** ** Index creation *)
(* ================================================================== *)

(** The statement [_create_index] builds, spelled out. *)
Lemma create_index_stmt_shape :
  forall table_name index_name idx,
    _create_index_stmt table_name index_name idx
    = Ok (Composed
            [ SQL "CREATE ";
              SQL (if unique idx then "UNIQUE " else EmptyString);
              SQL "INDEX ";
              Identifier [index_name];
              SQL " ON ";
              Identifier [table_name];
              SQL " (";
              join ", " (map index_field_sql (fields idx));
              SQL ")" ]).
Proof. intros. reflexivity. Qed.

(** [_create_index] takes the index name from its caller and never looks at
    its length: it sends exactly one statement, in which the name it was given
    stands unchanged as a quoted identifier. *)
Lemma create_index_passes_name_through :
  forall table_name index_name idx tr,
  exists stmt,
    _create_index table_name index_name idx tr = (Ok tt, tr ++ [stmt])
    /\ _create_index_stmt table_name index_name idx = Ok stmt
    /\ In index_name (quoted_names stmt).
Proof.
  intros. eexists. split; [|split].
  - unfold _create_index, db_bind, db_lift.
    rewrite create_index_stmt_shape. reflexivity.
  - apply create_index_stmt_shape.
  - cbn. left. reflexivity.
Qed.

(** A field with a prefix length is rendered as raw statement text built
    from the bare field name. *)
Lemma index_field_sql_prefix :
  forall nm n,
    index_field_sql (mkField nm (Some n))
    = SQL (nm ++ "(" ++ str_of_int n ++ ")")%string.
Proof. reflexivity. Qed.

(** A field without one goes through identifier quoting. *)
Lemma index_field_sql_plain :
  forall nm, index_field_sql (mkField nm None) = Identifier [nm].
Proof. reflexivity. Qed.

(** C8.  An index on [body(16)] whose field name carries SQL text: the name
    reaches the statement inside raw text and is not among the quoted
    identifiers, while the index and table names are. *)
Theorem create_index_prefix_field_unquoted :
  let idx := mkIndex [mkField "body) WHERE (1=1" (Some 16%Z)] false false None in
  exists stmt,
    _create_index_stmt "docs" "ix_docs_body" idx = Ok stmt
    /\ quoted_names stmt = ["ix_docs_body"; "docs"]
    /\ raw_parts stmt
       = ["CREATE "; EmptyString; "INDEX "; " ON "; " (";
          "body) WHERE (1=1(16)"; ")"].
Proof. eexists. split; [reflexivity|split; reflexivity]. Qed.

(* ================================================================== *)
(** ** Table creation *)
(* ================================================================== *)

Lemma str_tuple_eqb_eq : forall a b, str_tuple_eqb a b = true <-> a = b.
Proof.
  induction a as [|x a IH]; destruct b as [|y b]; cbn; split; intro H;
    try reflexivity; try discriminate.
  - apply andb_true_iff in H as [Hx Hr].
    apply String.eqb_eq in Hx. apply IH in Hr. congruence.
  - inversion H; subst. rewrite String.eqb_refl. cbn. apply IH. reflexivity.
Qed.

Section CreateTable.
Variable _int_map : list (Z * string).
Variable self_create_indexes : string -> DbTable -> db unit.

Lemma autoinc_misplaced_iff :
  forall pf col,
    autoinc_misplaced pf col = true
    <-> truthy (autoinc col) = true /\ pf <> [name col].
Proof.
  intros. unfold autoinc_misplaced.
  rewrite andb_true_iff, negb_true_iff. split; intros [Ha Hn]; split; auto.
  - intro E. subst pf.
    assert (str_tuple_eqb [name col] [name col] = true)
      by (apply str_tuple_eqb_eq; reflexivity).
    congruence.
  - destruct (str_tuple_eqb [name col] pf) eqn:E; [|reflexivity].
    apply str_tuple_eqb_eq in E. congruence.
Qed.

(** The flag is read into a local that the statement never uses. *)
Lemma create_table_stmt_flag :
  forall name schema,
    create_table_stmt _int_map name schema true = create_table_stmt _int_map name schema false.
Proof. reflexivity. Qed.

Lemma create_table_flag :
  forall name schema create_indexes tr,
    create_table _int_map self_create_indexes name schema true create_indexes tr
    = create_table _int_map self_create_indexes name schema false create_indexes tr.
Proof. reflexivity. Qed.

(** C6.  [users(id, email)] with primary key [id], created with the
    if-not-exists flag set: the statement lists the two column definitions
    and the PRIMARY KEY clause, and has no IF NOT EXISTS in it. *)
Theorem create_table_if_not_exists_at_input :
  let schema :=
    mkTable [ mkCol "id" INTEGER (PBool false) None true false PNone None;
              mkCol "email" TEXT (PBool false) None false false PNone None ]
            [ mkIndex [mkField "id" None] true true None ] in
  exists stmt,
    create_table _int_map self_create_indexes "users" schema true false [] = (Ok tt, [stmt])
    /\ raw_parts stmt
       = [ "CREATE TABLE "; " ("; " "; "bigint"; " NOT NULL"; ", ";
           " "; "text"; ", "; "PRIMARY KEY ("; ")"; ");" ]
    /\ quoted_names stmt = ["users"; "id"; "email"; "id"]
    /\ str_contains "IF NOT EXISTS" (as_string stmt) = false.
Proof.
  eexists. split; [reflexivity|].
  split; [reflexivity|]. split; [reflexivity|]. vm_compute. reflexivity.
Qed.

(** *** The auto-increment check *)

Lemma coldef_of_rendered :
  forall pf c cd,
    coldef_base _int_map c = Ok cd ->
    coldef_of _int_map pf c
    = if autoinc_misplaced pf c
      then Raise (SchemaError (autoinc_message c))
      else Ok (if truthy (autoinc c) then add cd (SQL " SERIAL") else cd).
Proof.
  intros pf c cd H. unfold coldef_of, autoinc_misplaced. rewrite H. cbn [bind].
  destruct (truthy (autoinc c)); cbn [andb]; [|reflexivity].
  destruct (str_tuple_eqb [name c] pf); reflexivity.
Qed.

Lemma coldef_of_misplaced :
  forall pf c,
    autoinc_misplaced pf c = true ->
    exists e, coldef_of _int_map pf c = Raise e.
Proof.
  intros pf c H. destruct (coldef_base _int_map c) as [cd|e] eqn:E.
  - rewrite (coldef_of_rendered pf c cd E), H. eexists; reflexivity.
  - unfold coldef_of. rewrite E. eexists; reflexivity.
Qed.

Lemma mapM_raise_first :
  forall pf cols,
    Forall (fun c => renders _int_map c = true) cols ->
    match find (autoinc_misplaced pf) cols with
    | Some c =>
        mapM (coldef_of _int_map pf) cols
        = Raise (SchemaError (autoinc_message c))
    | None => exists coldefs, mapM (coldef_of _int_map pf) cols = Ok coldefs
    end.
Proof.
  intros pf cols H. induction H as [|c cols Hc Hall IH]; cbn [find mapM].
  - eexists; reflexivity.
  - unfold renders in Hc.
    destruct (coldef_base _int_map c) as [cd|e] eqn:Ecd; [|discriminate].
    rewrite (coldef_of_rendered pf c cd Ecd).
    destruct (autoinc_misplaced pf c); [reflexivity|]. cbn [bind].
    destruct (find (autoinc_misplaced pf) cols).
    + rewrite IH. reflexivity.
    + destruct IH as [cds ->]. eexists; reflexivity.
Qed.

Lemma mapM_misplaced_raises :
  forall pf cols,
    existsb (autoinc_misplaced pf) cols = true ->
    exists e, mapM (coldef_of _int_map pf) cols = Raise e.
Proof.
  intros pf cols. induction cols as [|c cols IH]; cbn [existsb mapM]; intro H.
  - discriminate.
  - destruct (autoinc_misplaced pf c) eqn:Em.
    + destruct (coldef_of_misplaced pf c Em) as [e ->]. eexists; reflexivity.
    + cbn [orb] in H. destruct (IH H) as [e He].
      destruct (coldef_of _int_map pf c); cbn [bind].
      * rewrite He. eexists; reflexivity.
      * eexists; reflexivity.
Qed.

(** Whatever else is wrong with the table, a misplaced [autoinc] makes the
    column loop raise, so nothing is sent. *)
Lemma create_table_misplaced_raises :
  forall name schema ignore_existing create_indexes tr,
    existsb (autoinc_misplaced (scan_primary (indexes schema) []))
            (columns schema) = true ->
    exists e,
      create_table _int_map self_create_indexes name schema
                   ignore_existing create_indexes tr
      = (Raise e, tr).
Proof.
  intros name schema ie ci tr H.
  destruct (mapM_misplaced_raises _ _ H) as [e He].
  unfold create_table, create_table_stmt. rewrite He. exists e. reflexivity.
Qed.

Lemma format_primary_key :
  forall keys,
    format "PRIMARY KEY ({})" [keys]
    = Ok (Composed [SQL "PRIMARY KEY ("; keys; SQL ")"]).
Proof. reflexivity. Qed.

Lemma format_create_table :
  forall name coldefs,
    format "CREATE TABLE {} ({});" [name; coldefs]
    = Ok (Composed [SQL "CREATE TABLE "; name; SQL " ("; coldefs; SQL ");"]).
Proof. reflexivity. Qed.

(** For a table whose columns all get through type resolution and
    rendering: if some column has [autoinc] set and is not the one primary
    field, [create_table] raises [SchemaError] for the first such column and
    sends nothing; otherwise the column loop raises nothing, the CREATE TABLE
    statement is sent and index creation, if asked for, follows. *)
Lemma create_table_autoinc_first :
  forall name schema ignore_existing create_indexes tr,
    Forall (fun c => renders _int_map c = true) (columns schema) ->
    match find (autoinc_misplaced (scan_primary (indexes schema) []))
               (columns schema) with
    | Some c =>
        create_table _int_map self_create_indexes name schema
                     ignore_existing create_indexes tr
        = (Raise (SchemaError (autoinc_message c)), tr)
    | None =>
        exists stmt,
          create_table_stmt _int_map name schema ignore_existing = Ok stmt
          /\ create_table _int_map self_create_indexes name schema
                          ignore_existing create_indexes tr
             = if create_indexes
               then self_create_indexes name schema (tr ++ [stmt])
               else (Ok tt, tr ++ [stmt])
    end.
Proof.
  intros name schema ie ci tr H.
  pose proof (mapM_raise_first (scan_primary (indexes schema) []) _ H) as Hm.
  unfold create_table, create_table_stmt.
  destruct (find _ (columns schema)) as [c|].
  - rewrite Hm. reflexivity.
  - destruct Hm as [coldefs ->]. cbn [bind].
    destruct (map (fun k => Identifier [k]) (scan_primary (indexes schema) []))
      as [|k ks].
    + cbn [bind]. rewrite format_create_table.
      eexists. split; [reflexivity|]. destruct ci; reflexivity.
    + rewrite format_primary_key. cbn [bind]. rewrite format_create_table.
      eexists. split; [reflexivity|]. destruct ci; reflexivity.
Qed.
End CreateTable.

(** *** What it takes for a column to render *)

Lemma type_map_total :
  forall t, exists s, dict_getitem DbType_eqb _type_map t = Ok s.
Proof. destruct t; eexists; reflexivity. Qed.

Lemma dict_contains_getitem :
  forall (d : list (Z * string)) z,
    dict_contains Z.eqb d z = true ->
    exists s, dict_getitem Z.eqb d z = Ok s.
Proof.
  intros d z. unfold dict_contains, dict_getitem.
  destruct (dict_get Z.eqb d z); [eexists; reflexivity|discriminate].
Qed.

(** A column renders exactly when it carries no postgres custom info on a
    TEXT type, is not a sized TEXT, and its default, if any, is a string. *)
Lemma renders_iff :
  forall _int_map col,
    renders _int_map col = true
    <-> postgres_text_custom col = None
        /\ truthy_int (size col) && DbType_eqb (typ col) TEXT = false
        /\ (truthy (default col) = false \/ exists s, default col = PStr s).
Proof.
  intros im col. unfold renders, coldef_base, resolve_type.
  destruct (postgres_text_custom col) as [c|].
  - split; [|intros [H _]; discriminate].
    destruct (String.eqb (info c) "text"); [cbn; discriminate|].
    destruct (String.eqb (info c) "bytea"); cbn; discriminate.
  - destruct (truthy_int (size col) && DbType_eqb (typ col) TEXT) eqn:Et.
    + split; [|intros (_ & H & _); discriminate].
      destruct (size col); cbn; discriminate.
    + assert (Hty : exists c, 
        (if truthy_int (size col) && DbType_eqb (typ col) BLOB
         then Ok (TSql (SQL "bytea"))
         else if truthy_int (size col) && DbType_eqb (typ col) INTEGER
                 && match size col with
                    | Some z => dict_contains Z.eqb im z
                    | None => false
                    end
              then s <- match size col with
                        | Some z => dict_getitem Z.eqb im z
                        | None => Raise KeyError
                        end ;; Ok (TSql (SQL s))
              else s <- dict_getitem DbType_eqb _type_map (typ col) ;;
                   Ok (TSql (SQL s))) = Ok (TSql c)).
      { destruct (truthy_int (size col) && DbType_eqb (typ col) BLOB);
          [eexists; reflexivity|].
        destruct (truthy_int (size col) && DbType_eqb (typ col) INTEGER); cbn [andb].
        - destruct (size col) as [z|].
          + destruct (dict_contains Z.eqb im z) eqn:Ec.
            * destruct (dict_contains_getitem _ _ Ec) as [s ->].
              eexists; reflexivity.
            * destruct (type_map_total (typ col)) as [s ->]. eexists; reflexivity.
          + destruct (type_map_total (typ col)) as [s ->]. eexists; reflexivity.
        - destruct (type_map_total (typ col)) as [s ->]. eexists; reflexivity. }
      destruct Hty as [c ->]. cbn [bind add_val].
      destruct (default col) as [|b|z|s]; cbn [truthy].
      * split; [intros _; repeat split; left; reflexivity|reflexivity].
      * destruct b; cbn [mkIdentifier bind].
        -- split; [discriminate|].
           intros (_ & _ & [H|[s H]]); discriminate.
        -- split; [intros _; repeat split; left; reflexivity|reflexivity].
      * destruct (Z.eqb z 0); cbn [negb mkIdentifier bind].
        -- split; [intros _; repeat split; left; reflexivity|reflexivity].
        -- split; [discriminate|].
           intros (_ & _ & [H|[s H]]); discriminate.
      * destruct (String.eqb s EmptyString); cbn [negb mkIdentifier bind].
        -- split; [intros _; repeat split; left; reflexivity|reflexivity].
        -- split; [intros _; repeat split; right; eexists; reflexivity|reflexivity].
Qed.

(** *** Which exception the column loop raises *)

Lemma resolve_type_raise_kind :
  forall _int_map col e,
    resolve_type _int_map col = Raise e ->
    (exists msg, e = TypeError msg) \/ (exists msg, e = AssertionError msg).
Proof.
  intros im col e H. unfold resolve_type in H.
  destruct (postgres_text_custom col) as [ci|].
  { destruct (String.eqb (info ci) "text"); [discriminate|].
    destruct (String.eqb (info ci) "bytea"); [discriminate|].
    inversion H. right. eexists; reflexivity. }
  destruct (truthy_int (size col) && DbType_eqb (typ col) TEXT).
  { destruct (size col); cbn in H; inversion H; left; eexists; reflexivity. }
  destruct (truthy_int (size col) && DbType_eqb (typ col) BLOB); [discriminate|].
  destruct (truthy_int (size col) && DbType_eqb (typ col) INTEGER); cbn [andb] in H.
  - destruct (size col) as [z|].
    + destruct (dict_contains Z.eqb im z) eqn:Ec.
      * destruct (dict_contains_getitem _ _ Ec) as [s Hs]. rewrite Hs in H.
        discriminate.
      * destruct (type_map_total (typ col)) as [s Hs]. rewrite Hs in H.
        discriminate.
    + destruct (type_map_total (typ col)) as [s Hs]. rewrite Hs in H.
      discriminate.
  - destruct (type_map_total (typ col)) as [s Hs]. rewrite Hs in H.
    discriminate.
Qed.

Lemma coldef_base_raise_kind :
  forall _int_map col e,
    coldef_base _int_map col = Raise e ->
    (exists msg, e = TypeError msg) \/ (exists msg, e = AssertionError msg).
Proof.
  intros im col e H. unfold coldef_base in H.
  destruct (resolve_type im col) as [[s|c]|e'] eqn:Er; cbn [bind add_val] in H.
  - inversion H. left. eexists; reflexivity.
  - destruct (truthy (default col)); [|discriminate].
    destruct (default col) as [|b|z|d]; cbn [mkIdentifier bind] in H;
      try discriminate; inversion H; left; eexists; reflexivity.
  - inversion H; subst. exact (resolve_type_raise_kind im col e Er).
Qed.

(** The body of the column loop raises [SchemaError] only at the
    auto-increment test, on a column that got that far. *)
Lemma coldef_of_raise :
  forall _int_map pf col e,
    coldef_of _int_map pf col = Raise e ->
    loop_error e
    /\ forall msg,
        e = SchemaError msg ->
        renders _int_map col = true
        /\ autoinc_misplaced pf col = true
        /\ msg = autoinc_message col.
Proof.
  intros im pf col e H.
  destruct (coldef_base im col) as [cd|e'] eqn:Eb.
  - rewrite (coldef_of_rendered im pf col cd Eb) in H.
    destruct (autoinc_misplaced pf col) eqn:Em; [|discriminate].
    inversion H. split; [right; right; eexists; reflexivity|].
    intros msg Hm. inversion Hm. unfold renders. rewrite Eb.
    repeat split.
  - unfold coldef_of in H. rewrite Eb in H. cbn [bind] in H. inversion H; subst.
    destruct (coldef_base_raise_kind im col e Eb) as [[m ->]|[m ->]].
    + split; [left; eexists; reflexivity|]. intros msg Hm. discriminate Hm.
    + split; [right; left; eexists; reflexivity|]. intros msg Hm. discriminate Hm.
Qed.

Lemma mapM_raise_split :
  forall (A B : Type) (f : A -> result B) l e,
    mapM f l = Raise e ->
    exists pre x post,
      l = pre ++ x :: post
      /\ Forall (fun y => exists b, f y = Ok b) pre
      /\ f x = Raise e.
Proof.
  intros A B f l e. induction l as [|y l IH]; cbn [mapM]; intro H;
    [discriminate|].
  destruct (f y) as [b|e'] eqn:Ey; cbn [bind] in H.
  - destruct (mapM f l) as [bs|e''] eqn:El; cbn [bind] in H; [discriminate|].
    inversion H; subst. destruct (IH eq_refl) as (pre & x & post & -> & Hp & Hx).
    exists (y :: pre), x, post. split; [reflexivity|].
    split; [constructor; [exists b; exact Ey|exact Hp]|exact Hx].
  - inversion H; subst. exists [], y, l. split; [reflexivity|].
    split; [constructor|exact Ey].
Qed.






(* ================================================================== *)
(** ** Normalisation *)
(* ================================================================== *)

Lemma dict_set_fresh :
  forall (V : Type) (d : list (string * V)) k v,
    ~ In k (map fst d) -> dict_set String.eqb d k v = d ++ [(k, v)].
Proof.
  intros V d k v. induction d as [|[k' v'] d IH]; cbn; intro H.
  - reflexivity.
  - destruct (String.eqb k' k) eqn:E.
    + apply String.eqb_eq in E. exfalso. apply H. left. exact E.
    + rewrite IH; [reflexivity|]. intro Hin. apply H. right. exact Hin.
Qed.

Lemma simplify_fold :
  forall m acc pf,
    NoDup (map fst acc ++ map fst m) ->
    fst (fold_left simplify_step m (acc, pf)) = acc ++ simplify_tables pf m.
Proof.
  induction m as [|[nam tab] m IH]; intros acc pf H; cbn [fold_left simplify_tables].
  - cbn. rewrite app_nil_r. reflexivity.
  - cbn [simplify_step]. cbn [map fst] in H.
    rewrite dict_set_fresh.
    + rewrite IH.
      * rewrite <- app_assoc. reflexivity.
      * rewrite map_app, <- app_assoc. exact H.
    + apply NoDup_remove_2 in H. intro Hin. apply H.
      apply in_or_app. left. exact Hin.
Qed.

Lemma simplify_model_tables :
  forall m, is_dict m -> simplify_model m = simplify_tables [] m.
Proof.
  intros m H. unfold simplify_model. rewrite simplify_fold; [reflexivity|exact H].
Qed.

Lemma simplify_tables_keys :
  forall m pf, map fst (simplify_tables pf m) = map fst m.
Proof.
  induction m as [|[nam tab] m IH]; intros pf; cbn; [reflexivity|].
  rewrite IH. reflexivity.
Qed.

(** The result of [simplify_model] on a dict is a dict with the same keys. *)
Lemma simplify_model_is_dict :
  forall m, is_dict m -> is_dict (simplify_model m).
Proof.
  intros m H. rewrite (simplify_model_tables m H).
  unfold is_dict. rewrite simplify_tables_keys. exact H.
Qed.

(** *** What the column step does to each field *)

Lemma simplify_col_name : forall pf c, name (simplify_col pf c) = name c.
Proof.
  intros pf [nm ty ai sz nn fx df cu]. unfold simplify_col. cbn.
  destruct cu as [ci|]; [destruct (String.eqb (dialect ci) "postgres")|];
    destruct (str_in nm pf);
    destruct (DbType_eqb ty INTEGER && negb (truthy_int sz));
    reflexivity.
Qed.

Lemma simplify_col_typ : forall pf c, typ (simplify_col pf c) = typ c.
Proof.
  intros pf [nm ty ai sz nn fx df cu]. unfold simplify_col. cbn.
  destruct cu as [ci|]; [destruct (String.eqb (dialect ci) "postgres")|];
    destruct (str_in nm pf);
    destruct (DbType_eqb ty INTEGER && negb (truthy_int sz));
    reflexivity.
Qed.

Lemma simplify_col_size :
  forall pf c,
    size (simplify_col pf c)
    = if DbType_eqb (typ c) INTEGER && negb (truthy_int (size c))
      then Some 8%Z else size c.
Proof.
  intros pf [nm ty ai sz nn fx df cu]. unfold simplify_col. cbn.
  destruct cu as [ci|]; [destruct (String.eqb (dialect ci) "postgres")|];
    destruct (str_in nm pf);
    destruct (DbType_eqb ty INTEGER && negb (truthy_int sz));
    reflexivity.
Qed.

Lemma simplify_col_notnull :
  forall pf c,
    notnull (simplify_col pf c) = str_in (name c) pf || notnull c.
Proof.
  intros pf [nm ty ai sz nn fx df cu]. unfold simplify_col. cbn.
  destruct cu as [ci|]; [destruct (String.eqb (dialect ci) "postgres")|];
    destruct (str_in nm pf);
    destruct (DbType_eqb ty INTEGER && negb (truthy_int sz));
    reflexivity.
Qed.

(** The conditional assignment of [custom] writes back the value the dict
    already holds: the field is never cleared. *)
Lemma simplify_col_custom : forall pf c, custom (simplify_col pf c) = custom c.
Proof.
  intros pf [nm ty ai sz nn fx df cu]. unfold simplify_col. cbn.
  destruct cu as [ci|]; [destruct (String.eqb (dialect ci) "postgres")|];
    destruct (str_in nm pf);
    destruct (DbType_eqb ty INTEGER && negb (truthy_int sz));
    reflexivity.
Qed.

Lemma simplify_col_autoinc : forall pf c, autoinc (simplify_col pf c) = autoinc c.
Proof.
  intros pf [nm ty ai sz nn fx df cu]. unfold simplify_col. cbn.
  destruct cu as [ci|]; [destruct (String.eqb (dialect ci) "postgres")|];
    destruct (str_in nm pf);
    destruct (DbType_eqb ty INTEGER && negb (truthy_int sz));
    reflexivity.
Qed.

Lemma simplify_col_fixed : forall pf c, fixed (simplify_col pf c) = fixed c.
Proof.
  intros pf [nm ty ai sz nn fx df cu]. unfold simplify_col. cbn.
  destruct cu as [ci|]; [destruct (String.eqb (dialect ci) "postgres")|];
    destruct (str_in nm pf);
    destruct (DbType_eqb ty INTEGER && negb (truthy_int sz));
    reflexivity.
Qed.

Lemma simplify_col_default : forall pf c, default (simplify_col pf c) = default c.
Proof.
  intros pf [nm ty ai sz nn fx df cu]. unfold simplify_col. cbn.
  destruct cu as [ci|]; [destruct (String.eqb (dialect ci) "postgres")|];
    destruct (str_in nm pf);
    destruct (DbType_eqb ty INTEGER && negb (truthy_int sz));
    reflexivity.
Qed.

Lemma DbCol_ext :
  forall a b : DbCol,
    name a = name b -> typ a = typ b -> autoinc a = autoinc b ->
    size a = size b -> notnull a = notnull b -> fixed a = fixed b ->
    default a = default b -> custom a = custom b ->
    a = b.
Proof.
  intros [] [] ? ? ? ? ? ? ? ?; cbn in *; subst; reflexivity.
Qed.

Lemma simplify_col_idem :
  forall pf c, simplify_col pf (simplify_col pf c) = simplify_col pf c.
Proof.
  intros pf c. apply DbCol_ext.
  - now rewrite !simplify_col_name.
  - now rewrite !simplify_col_typ.
  - now rewrite !simplify_col_autoinc.
  - rewrite (simplify_col_size pf (simplify_col pf c)).
    rewrite simplify_col_typ, simplify_col_size.
    destruct (DbType_eqb (typ c) INTEGER); cbn [andb]; [|reflexivity].
    destruct (truthy_int (size c)) eqn:E; cbn [negb].
    + rewrite E. reflexivity.
    + reflexivity.
  - rewrite (simplify_col_notnull pf (simplify_col pf c)).
    rewrite simplify_col_name, simplify_col_notnull.
    destruct (str_in (name c) pf); reflexivity.
  - now rewrite !simplify_col_fixed.
  - now rewrite !simplify_col_default.
  - now rewrite !simplify_col_custom.
Qed.

Lemma simplify_tables_idem :
  forall m pf,
    simplify_tables pf (simplify_tables pf m) = simplify_tables pf m.
Proof.
  induction m as [|[nam tab] m IH]; intros pf; cbn; [reflexivity|].
  rewrite IH, map_map. f_equal. f_equal. f_equal.
  apply map_ext. intro c. apply simplify_col_idem.
Qed.

(** C3.  Normalisation is idempotent on every model. *)
Theorem simplify_model_idempotent :
  forall m : DbModel,
    is_dict m ->
    simplify_model (simplify_model m) = simplify_model m.
Proof.
  intros m H.
  rewrite (simplify_model_tables _ (simplify_model_is_dict m H)).
  rewrite (simplify_model_tables m H).
  apply simplify_tables_idem.
Qed.

Lemma sample_model_is_dict : is_dict sample_model.
Proof.
  unfold is_dict. cbn. repeat constructor; cbn; intuition discriminate.
Defined.

(** C3, an instance. *)
Lemma simplify_model_idempotent_witness :
  is_dict sample_model
  /\ simplify_model (simplify_model sample_model) = simplify_model sample_model.
Proof.
  split.
  - exact sample_model_is_dict.
  - apply (simplify_model_idempotent sample_model). exact sample_model_is_dict.
Defined.

(** *** Primary-key columns *)

Lemma scan_primary_overrides :
  forall idxs pf pf',
    existsb primary idxs = true ->
    scan_primary idxs pf = scan_primary idxs pf'.
Proof.
  unfold scan_primary.
  induction idxs as [|i idxs IH]; intros pf pf' H; cbn in *; [discriminate|].
  destruct (primary i); cbn [orb] in H.
  - reflexivity.
  - apply IH. exact H.
Qed.

Lemma simplify_tables_in :
  forall m pf nam tab,
    In (nam, tab) m ->
    exists pf0,
      In (nam, mkTable (map (simplify_col (scan_primary (indexes tab) pf0))
                            (columns tab))
                       (indexes tab))
         (simplify_tables pf m).
Proof.
  induction m as [|[n t] m IH]; intros pf nam tab H; [destruct H|].
  cbn [simplify_tables]. destruct H as [H|H].
  - inversion H; subst. exists pf. left. reflexivity.
  - destruct (IH (scan_primary (indexes t) pf) nam tab H) as [pf0 Hin].
    exists pf0. right. exact Hin.
Qed.

(** A table that has a primary index gets [notnull] on every column named
    in it (the last primary index visited, should there be several). *)
Lemma simplify_model_primary_notnull :
  forall m nam tab,
    is_dict m ->
    In (nam, tab) m ->
    existsb primary (indexes tab) = true ->
    exists tab',
      In (nam, tab') (simplify_model m)
      /\ indexes tab' = indexes tab
      /\ forall c,
          In c (columns tab') ->
          str_in (name c) (scan_primary (indexes tab) []) = true ->
          notnull c = true.
Proof.
  intros m nam tab Hd Hin Hp.
  rewrite (simplify_model_tables m Hd).
  destruct (simplify_tables_in m [] nam tab Hin) as [pf0 H].
  eexists. split; [exact H|]. split; [reflexivity|].
  cbn [columns]. intros c Hc Hn.
  apply in_map_iff in Hc as [c0 [<- _]].
  rewrite simplify_col_name in Hn. rewrite simplify_col_notnull.
  rewrite (scan_primary_overrides _ pf0 [] Hp), Hn. reflexivity.
Qed.

(** C4.  [audit_log] has no primary index, and its nullable column [id] is
    not in a primary key of its own table; normalising it after [accounts]
    still forces [notnull] on it, with the primary fields of [accounts]. *)
Theorem simplify_model_primary_fields_leak :
  scan_primary (indexes audit_log_table) [] = []
  /\ map notnull (columns audit_log_table) = [false; false]
  /\ exists tab',
      dict_get String.eqb (simplify_model sample_model) "audit_log" = Some tab'
      /\ map name (columns tab') = ["id"; "note"]
      /\ map notnull (columns tab') = [true; false].
Proof.
  split; [reflexivity|]. split; [reflexivity|].
  eexists. split; [reflexivity|]. split; reflexivity.
Qed.

(** Normalised on its own, the same table keeps the flag. *)
Lemma simplify_model_audit_log_alone :
  exists tab',
    simplify_model [("audit_log", audit_log_table)] = [("audit_log", tab')]
    /\ map notnull (columns tab') = [false; false].
Proof. eexists. split; reflexivity. Qed.

(** C7.  The column [note] of [audit_log] carries custom info tagged
    [mysql]; after normalisation for postgres it still does. *)
Theorem simplify_model_keeps_foreign_custom :
  exists tab',
    dict_get String.eqb (simplify_model sample_model) "audit_log" = Some tab'
    /\ map custom (columns tab') = [None; Some (mkCustom "mysql" "medium")].
Proof. eexists. split; reflexivity. Qed.

(* ================================================================== *)
(** ** Native types, there and back *)
(* ================================================================== *)

Lemma default_custom_cases :
  forall t,
    default_custom t
    = match t with
      | TEXT => Some (mkCustom "postgres" "text")
      | BLOB => Some (mkCustom "postgres" "bytea")
      | _ => None
      end.
Proof. destruct t; reflexivity. Qed.

(** [column_model] reads [re] and nothing else of the module namespace. *)
Lemma column_model_with_re :
  forall g int_of_str re col_name col_type is_nullable col_default
         is_auto_increment in_primary,
    g_re g = Some re ->
    column_model g int_of_str col_name col_type is_nullable col_default
                 is_auto_increment in_primary
    = column_model (mkGlobals (Some re) false false false) int_of_str col_name
                   col_type is_nullable col_default is_auto_increment in_primary.
Proof.
  intros g ios re cn ct nl cd ai ip Hg. unfold column_model, global_re.
  rewrite Hg. reflexivity.
Qed.

(** With [re] bound, only the character pattern yields a size, and it
    yields TEXT. *)
Lemma column_model_size_text :
  forall g int_of_str re col_name col_type is_nullable col_default
         is_auto_increment in_primary back z,
    g_re g = Some re ->
    column_model g int_of_str col_name col_type is_nullable col_default
                 is_auto_increment in_primary = Ok back ->
    size back = Some z ->
    typ back = TEXT.
Proof.
  intros g ios re cn ct nl cd ai ip back z Hg H.
  unfold column_model, global_re in H. rewrite Hg in H. cbn [bind] in H.
  destruct (re_match re character_pattern ct) as [m|].
  - destruct (match_group m 2) as [g2|]; [|discriminate]. cbn [bind] in H.
    destruct (ios g2) as [n|]; [|discriminate]. cbn [bind] in H.
    inversion H. reflexivity.
  - destruct (re_match re bytea_pattern ct); cbn [bind] in H;
      inversion H; cbn [size]; discriminate.
Qed.

(** With the standard [re] bound, the default native name of every abstract
    type maps back to that type, with no size and with the custom info
    recorded for the name. *)
Lemma column_model_default_name :
  forall g int_of_str t native col_name is_nullable col_default
         is_auto_increment in_primary,
    g_re g = Some std_re ->
    dict_getitem DbType_eqb _type_map t = Ok native ->
    exists back,
      column_model g int_of_str col_name native is_nullable col_default
                   is_auto_increment in_primary = Ok back
      /\ typ back = t /\ size back = None /\ custom back = default_custom t.
Proof.
  intros g ios t native cn nl cd ai ip Hg H.
  rewrite (column_model_with_re g ios std_re) by exact Hg.
  destruct t; inversion H; subst; eexists; (split; [reflexivity|]);
    repeat split.
Qed.

(** The native names the generator spells differently from the catalog
    patterns are not recognised on the way back. *)
Lemma column_model_varchar :
  forall int_of_str col_name is_nullable col_default is_auto_increment
         in_primary,
    exists back,
      column_model patched_globals int_of_str col_name "varchar(255)"
                   is_nullable col_default is_auto_increment in_primary
      = Ok back
      /\ typ back = ANY /\ size back = None /\ custom back = None.
Proof. intros. eexists. split; [reflexivity|]. repeat split. Qed.

(** A sized TEXT column does not get a native type at all: the size, an
    integer, is handed to the identifier constructor. *)
Lemma resolve_type_sized_text :
  forall _int_map col z,
    typ col = TEXT -> size col = Some z -> z <> 0%Z ->
    postgres_text_custom col = None ->
    resolve_type _int_map col
    = Raise (TypeError "SQL identifier parts must be strings").
Proof.
  intros im col z Ht Hs Hz Hc. unfold resolve_type. rewrite Hc, Ht, Hs. cbn.
  apply Z.eqb_neq in Hz. rewrite Hz. reflexivity.
Qed.

Lemma DbType_eqb_eq : forall a b, DbType_eqb a b = true <-> a = b.
Proof. destruct a, b; cbn; split; intro H; congruence. Qed.

(** The four ways [resolve_type] can bind [typ]. *)
Lemma resolve_type_cases :
  forall _int_map col t,
    resolve_type _int_map col = Ok t ->
    (exists c,
        custom col = Some c /\ typ col = TEXT /\ dialect c = "postgres"
        /\ ((info c = "text" /\ t = TStr "text")
            \/ (info c = "bytea" /\ t = TStr "bytea")))
    \/ (truthy_int (size col) = true /\ typ col = BLOB /\ t = TSql (SQL "bytea"))
    \/ (truthy_int (size col) = true /\ typ col = INTEGER
        /\ exists s, t = TSql (SQL s))
    \/ (exists s,
           dict_getitem DbType_eqb _type_map (typ col) = Ok s
           /\ t = TSql (SQL s)).
Proof.
  intros im col t H. unfold resolve_type in H.
  destruct (postgres_text_custom col) as [c|] eqn:Ec.
  - left. unfold postgres_text_custom in Ec.
    destruct (custom col) as [c'|]; [|discriminate].
    destruct (DbType_eqb (typ col) TEXT && String.eqb (dialect c') "postgres")
      eqn:E; [|discriminate].
    inversion Ec; subst c'. apply andb_true_iff in E as [Et Ed].
    apply DbType_eqb_eq in Et. apply String.eqb_eq in Ed.
    exists c. repeat split; try assumption.
    destruct (String.eqb (info c) "text") eqn:E1.
    + apply String.eqb_eq in E1. inversion H. left. split; [assumption|reflexivity].
    + destruct (String.eqb (info c) "bytea") eqn:E2; [|discriminate].
      apply String.eqb_eq in E2. inversion H. right. split; [assumption|reflexivity].
  - right.
    destruct (truthy_int (size col)) eqn:Es; cbn [andb] in H.
    + destruct (DbType_eqb (typ col) TEXT) eqn:Et.
      { destruct (size col); cbn in H; discriminate. }
      destruct (DbType_eqb (typ col) BLOB) eqn:Eb.
      { left. apply DbType_eqb_eq in Eb. inversion H. repeat split. assumption. }
      right.
      destruct (DbType_eqb (typ col) INTEGER) eqn:Ei; cbn [andb] in H.
      * destruct (size col) as [z|]; [|discriminate].
        destruct (dict_contains Z.eqb im z).
        -- left. apply DbType_eqb_eq in Ei.
           destruct (dict_getitem Z.eqb im z) as [s|]; [|discriminate].
           inversion H. repeat split; try assumption. eexists; reflexivity.
        -- right. destruct (dict_getitem DbType_eqb _type_map (typ col)) as [s|];
             [|discriminate].
           inversion H. eexists; split; reflexivity.
      * right. destruct (dict_getitem DbType_eqb _type_map (typ col)) as [s|];
          [|discriminate].
        inversion H. eexists; split; reflexivity.
    + right. right.
      destruct (dict_getitem DbType_eqb _type_map (typ col)) as [s|];
        [|discriminate].
      inversion H. eexists; split; reflexivity.
Qed.

Lemma truthy_int_some : forall o, truthy_int o = true -> o <> None.
Proof. intros [z|] H; [discriminate|discriminate H]. Qed.

(** With the standard [re] bound: mapping the native type that
    [create_table] resolves for a column back through [column_model] returns
    the column's own type, size and custom info exactly when the column has
    no size and its custom info is the one the introspector records for the
    default native name of its type. *)
Lemma type_round_trip_with_re :
  forall g int_of_str _int_map col t col_name is_nullable col_default
         is_auto_increment in_primary,
    g_re g = Some std_re ->
    resolve_type _int_map col = Ok t ->
    (exists back,
        column_model g int_of_str col_name (native_text t) is_nullable
                     col_default is_auto_increment in_primary = Ok back
        /\ typ back = typ col /\ size back = size col
        /\ custom back = custom col)
    <-> (size col = None /\ custom col = default_custom (typ col)).
Proof.
  intros g ios im col t cn nl cd ai ip Hg H.
  destruct (resolve_type_cases im col t H)
    as [(c & Hc & Ht & Hd & [[Hi ->]|[Hi ->]])
       |[(Hs & Ht & ->)|[(Hs & Ht & s & ->)|(s & Hs & ->)]]].
  - rewrite (column_model_with_re g ios std_re) by exact Hg.
    rewrite Hc, Ht. destruct c as [d i]; cbn in Hd, Hi; subst d i.
    split.
    + intros (back & Hb & _ & Hsz & _). inversion Hb; subst back.
      cbn in Hsz. split; [congruence|reflexivity].
    + intros [Hsz _]. eexists. split; [reflexivity|]. cbn.
      repeat split; congruence.
  - rewrite (column_model_with_re g ios std_re) by exact Hg.
    rewrite Hc, Ht. destruct c as [d i]; cbn in Hd, Hi; subst d i.
    split.
    + intros (back & Hb & Hty & _). inversion Hb; subst back.
      cbn in Hty. discriminate Hty.
    + intros [_ Hcu]. discriminate Hcu.
  - apply truthy_int_some in Hs. split; [|tauto].
    rewrite (column_model_with_re g ios std_re) by exact Hg.
    intros (back & Hb & _ & Hsz & _). inversion Hb; subst back.
    cbn in Hsz. congruence.
  - apply truthy_int_some in Hs. split; [|tauto].
    intros (back & Hb & Hty & Hsz & _). exfalso.
    destruct (size col) as [z|]; [|congruence].
    pose proof (column_model_size_text g ios std_re _ _ _ _ _ _ back z Hg Hb Hsz).
    congruence.
  - destruct (column_model_default_name g ios (typ col) s cn nl cd ai ip Hg Hs)
      as (back & Hb & Hty & Hsz & Hcu).
    cbn [native_text as_string]. split.
    + intros (back' & Hb' & _ & Hsz' & Hcu'). rewrite Hb in Hb'.
      inversion Hb'; subst back'. split; congruence.
    + intros [Hsz' Hcu']. exists back. repeat split; congruence.
Qed.

(** C1.  A plain TEXT column, with no size and no custom info, is a
    combination the type mapping declares; [create_table] resolves its native
    type to [text].  Mapping [text] back never returns the column: in the
    module as it is [column_model] raises [NameError], and with the standard
    [re] bound it returns TEXT with custom info the column never had. *)
Theorem type_round_trip_text_fails :
  let col := mkCol "body" TEXT (PBool false) None false false PNone None in
  (forall _int_map, resolve_type _int_map col = Ok (TSql (SQL "text")))
  /\ (forall int_of_str,
         column_model shipped_globals int_of_str "body"
                      (native_text (TSql (SQL "text"))) "YES" PNone PNone false
         = Raise (NameError "re"))
  /\ (forall int_of_str,
         exists back,
           column_model patched_globals int_of_str "body"
                        (native_text (TSql (SQL "text"))) "YES" PNone PNone false
           = Ok back
           /\ typ back = TEXT
           /\ size back = None
           /\ custom back = Some (mkCustom "postgres" "text")
           /\ custom back <> custom col).
Proof.
  intros col. split; [intros im; reflexivity|].
  split; [intros ios; reflexivity|].
  intros ios. eexists. split; [reflexivity|]. cbn. repeat split. discriminate.
Qed.

(** With the standard [re] bound, a sized BLOB column loses its size on the
    way. *)
Lemma type_round_trip_sized_blob :
  forall _int_map int_of_str,
    resolve_type _int_map
      (mkCol "data" BLOB (PBool false) (Some 1024%Z) false false PNone None)
    = Ok (TSql (SQL "bytea"))
    /\ exists back,
        column_model patched_globals int_of_str "data" "bytea" "YES" PNone PNone
                     false = Ok back
        /\ size back = None.
Proof. intros im ios. split; [reflexivity|]. eexists. split; reflexivity. Qed.

(* ================================================================== *)
(** ** Composables: text, quoted names and raw text of compound fragments *)
(* ================================================================== *)

Lemma append_empty_r : forall s : string, (s ++ EmptyString)%string = s.
Proof. induction s as [|c s IH]; cbn; [reflexivity|]. rewrite IH. reflexivity. Qed.

Lemma append_assoc :
  forall a b c : string, ((a ++ b) ++ c)%string = (a ++ (b ++ c))%string.
Proof. induction a as [|x a IH]; intros; cbn; [reflexivity|]. rewrite IH. reflexivity. Qed.

Lemma concat_empty_cons :
  forall x l,
    String.concat EmptyString (x :: l) = (x ++ String.concat EmptyString l)%string.
Proof.
  intros x [|y l]; cbn [String.concat].
  - rewrite append_empty_r. reflexivity.
  - reflexivity.
Qed.

Lemma concat_empty_app :
  forall l1 l2,
    String.concat EmptyString (l1 ++ l2)
    = (String.concat EmptyString l1 ++ String.concat EmptyString l2)%string.
Proof.
  induction l1 as [|x l1 IH]; intros l2.
  - reflexivity.
  - rewrite <- app_comm_cons, !concat_empty_cons, IH, append_assoc. reflexivity.
Qed.

Lemma as_string_Composed_app :
  forall l1 l2,
    as_string (Composed (l1 ++ l2))
    = (as_string (Composed l1) ++ as_string (Composed l2))%string.
Proof. intros. cbn [as_string]. rewrite map_app. apply concat_empty_app. Qed.

Lemma as_string_Composed_cons :
  forall c l,
    as_string (Composed (c :: l)) = (as_string c ++ as_string (Composed l))%string.
Proof. intros. cbn [as_string map]. apply concat_empty_cons. Qed.

Lemma as_string_Composed_one : forall c, as_string (Composed [c]) = as_string c.
Proof. intros. reflexivity. Qed.

(** The text, the quoted names and the raw text of [a + b] are those of [a]
    followed by those of [b]. *)
Lemma as_string_add :
  forall a b, as_string (add a b) = (as_string a ++ as_string b)%string.
Proof.
  intros a b.
  destruct a as [sa|na|la]; destruct b as [sb|nb|lb]; unfold add;
    rewrite ?as_string_Composed_app, ?as_string_Composed_cons,
            ?as_string_Composed_one;
    try reflexivity.
  all: cbn [as_string map String.concat]; rewrite ?append_empty_r; reflexivity.
Qed.

Lemma quoted_names_add :
  forall a b, quoted_names (add a b) = quoted_names a ++ quoted_names b.
Proof.
  intros a b.
  destruct a as [sa|na|la]; destruct b as [sb|nb|lb]; unfold add;
    cbn [quoted_names flat_map]; rewrite ?flat_map_app; cbn [flat_map quoted_names];
    rewrite ?app_nil_r; reflexivity.
Qed.

Lemma raw_parts_add :
  forall a b, raw_parts (add a b) = raw_parts a ++ raw_parts b.
Proof.
  intros a b.
  destruct a as [sa|na|la]; destruct b as [sb|nb|lb]; unfold add;
    cbn [raw_parts flat_map]; rewrite ?flat_map_app; cbn [flat_map raw_parts];
    rewrite ?app_nil_r; reflexivity.
Qed.

(** [join] renders as the separator-joined texts of the items. *)
Lemma as_string_join :
  forall sep l,
    as_string (join sep l) = String.concat sep (map as_string l).
Proof.
  intros sep l. unfold join.
  induction l as [|x [|y l] IH].
  - reflexivity.
  - reflexivity.
  - change (intersperse (SQL sep) (x :: y :: l))
      with (x :: SQL sep :: intersperse (SQL sep) (y :: l)).
    rewrite !as_string_Composed_cons, IH. reflexivity.
Qed.

Lemma quoted_names_join :
  forall sep l, quoted_names (join sep l) = flat_map quoted_names l.
Proof.
  intros sep l. unfold join. cbn [quoted_names].
  induction l as [|x [|y l] IH].
  - reflexivity.
  - reflexivity.
  - change (intersperse (SQL sep) (x :: y :: l))
      with (x :: SQL sep :: intersperse (SQL sep) (y :: l)).
    cbn [flat_map quoted_names app] in *. rewrite IH. reflexivity.
Qed.

Lemma raw_parts_join :
  forall (P : string -> Prop) sep l,
    P sep ->
    Forall (fun c => Forall P (raw_parts c)) l ->
    Forall P (raw_parts (join sep l)).
Proof.
  intros P sep l Hsep H. unfold join. cbn [raw_parts].
  induction l as [|x [|y l] IH].
  - constructor.
  - cbn. rewrite app_nil_r. inversion H; assumption.
  - change (intersperse (SQL sep) (x :: y :: l))
      with (x :: SQL sep :: intersperse (SQL sep) (y :: l)).
    cbn [flat_map raw_parts app].
    inversion H as [|? ? Hx Hr]; subst.
    apply Forall_app. split; [exact Hx|].
    constructor; [exact Hsep|]. apply IH. exact Hr.
Qed.

(* ================================================================== *)
(** ** Table creation: what the statement consists of *)
(* ================================================================== *)

Lemma dict_getitem_in :
  forall (K V : Type) (eqb : K -> K -> bool) (d : list (K * V)) k v,
    dict_getitem eqb d k = Ok v -> In v (map snd d).
Proof.
  intros K V eqb d k v. unfold dict_getitem.
  induction d as [|[k' v'] d IH]; cbn; [discriminate|].
  destruct (eqb k' k).
  - intro H. inversion H. left. reflexivity.
  - intro H. right. apply IH. exact H.
Qed.

(** Whenever type resolution binds a composable, it is one piece of raw text
    taken from the type tables. *)
Lemma resolve_type_sql :
  forall _int_map col c,
    resolve_type _int_map col = Ok (TSql c) ->
    exists native,
      c = SQL native
      /\ (In native (map snd _type_map) \/ In native (map snd _int_map)).
Proof.
  intros im col c H. unfold resolve_type in H.
  destruct (postgres_text_custom col) as [ci|].
  { destruct (String.eqb (info ci) "text"); [discriminate|].
    destruct (String.eqb (info ci) "bytea"); discriminate. }
  destruct (truthy_int (size col) && DbType_eqb (typ col) TEXT).
  { destruct (size col); cbn in H; discriminate. }
  destruct (truthy_int (size col) && DbType_eqb (typ col) BLOB).
  { inversion H. exists "bytea". split; [reflexivity|]. left. cbn. tauto. }
  destruct (truthy_int (size col) && DbType_eqb (typ col) INTEGER
            && match size col with
               | Some z => dict_contains Z.eqb im z
               | None => false
               end).
  - destruct (size col) as [z|]; [|discriminate].
    destruct (dict_getitem Z.eqb im z) as [s|] eqn:E; [|discriminate].
    inversion H. exists s. split; [reflexivity|]. right.
    eapply dict_getitem_in. exact E.
  - destruct (dict_getitem DbType_eqb _type_map (typ col)) as [s|] eqn:E;
      [|discriminate].
    inversion H. exists s. split; [reflexivity|]. left.
    eapply dict_getitem_in. exact E.
Qed.

(** The fragments of a column definition that was built without error. *)
Lemma coldef_of_shape :
  forall _int_map pf col cd,
    coldef_of _int_map pf col = Ok cd ->
    exists native,
      resolve_type _int_map col = Ok (TSql (SQL native))
      /\ (In native (map snd _type_map) \/ In native (map snd _int_map))
      /\ cd = Composed
                ([Identifier [name col]; SQL " "; SQL native]
                   ++ (if notnull col then [SQL " NOT NULL"] else [])
                   ++ match default col with
                      | PStr d =>
                          if truthy (PStr d)
                          then [SQL " DEFAULT "; Identifier [d]] else []
                      | _ => []
                      end
                   ++ (if truthy (autoinc col) then [SQL " SERIAL"] else [])).
Proof.
  intros im pf col cd H. unfold coldef_of, coldef_base in H.
  destruct (resolve_type im col) as [[s|c]|e] eqn:Er; cbn [bind add_val] in H;
    try discriminate.
  destruct (resolve_type_sql im col c Er) as (native & -> & Hin).
  exists native. split; [reflexivity|]. split; [exact Hin|].
  cbn [add] in H.
  destruct (notnull col); cbn [add app] in H;
    destruct (default col) as [|b|z|d]; cbn [truthy] in H |- *.
  all: try (destruct b; cbn [mkIdentifier bind] in H; try discriminate).
  all: try (destruct (Z.eqb z 0); cbn [negb mkIdentifier bind] in H;
            try discriminate).
  all: try (destruct (String.eqb d EmptyString);
            cbn [negb mkIdentifier bind add app] in H).
  all: cbn [bind] in H;
    destruct (truthy (autoinc col));
    try (destruct (negb (str_tuple_eqb [name col] pf)); try discriminate);
    inversion H; reflexivity.
Qed.

(** The text and the quoted names of a column definition. *)
Lemma coldef_of_rendering :
  forall _int_map pf col cd,
    coldef_of _int_map pf col = Ok cd ->
    exists native,
      resolve_type _int_map col = Ok (TSql (SQL native))
      /\ as_string cd = coldef_text col native
      /\ quoted_names cd = coldef_names col.
Proof.
  intros im pf col cd H.
  destruct (coldef_of_shape im pf col cd H) as (native & Hr & _ & ->).
  exists native. split; [exact Hr|]. unfold coldef_text, coldef_names.
  split.
  - rewrite !as_string_Composed_app, !as_string_Composed_cons.
    change (as_string (Composed [])) with EmptyString.
    change (as_string (Identifier [name col])) with (quote_ident (name col)).
    change (as_string (SQL " ")) with " "%string.
    change (as_string (SQL native)) with native.
    rewrite append_empty_r, !append_assoc.
    do 3 f_equal.
    f_equal; [destruct (notnull col); reflexivity|].
    f_equal.
    + destruct (default col) as [| | |d]; try reflexivity.
      destruct (truthy (PStr d)); [|reflexivity].
      cbn [as_string map String.concat]. reflexivity.
    + destruct (truthy (autoinc col)); reflexivity.
  - cbn [quoted_names]. rewrite !flat_map_app. cbn [flat_map quoted_names app].
    f_equal.
    destruct (notnull col); cbn [flat_map quoted_names app];
      destruct (default col) as [| | |d]; cbn [flat_map app];
      try (destruct (truthy (PStr d)); cbn [flat_map quoted_names app]);
      destruct (truthy (autoinc col)); reflexivity.
Qed.

(** X2.  The text of a column definition: the quoted name, the native type,
    then NOT NULL, DEFAULT with the default quoted as an identifier, and
    SERIAL, each when it applies. *)
Theorem coldef_of_text :
  forall _int_map pf col cd,
    coldef_of _int_map pf col = Ok cd ->
    exists native,
      resolve_type _int_map col = Ok (TSql (SQL native))
      /\ as_string cd = coldef_text col native
      /\ quoted_names cd = coldef_names col.
Proof. intros im pf col cd H. exact (coldef_of_rendering im pf col cd H). Qed.

(** The clause that lists the primary key, as zero or one fragment. *)
Lemma create_table_stmt_shape :
  forall _int_map name schema ignore_existing stmt,
    create_table_stmt _int_map name schema ignore_existing = Ok stmt ->
    let pf := scan_primary (indexes schema) [] in
    exists coldefs,
      mapM (coldef_of _int_map pf) (columns schema) = Ok coldefs
      /\ stmt = Composed
                  [ SQL "CREATE TABLE "; Identifier [name]; SQL " (";
                    join ", "
                         (coldefs
                            ++ match pf with
                               | [] => []
                               | _ :: _ =>
                                   [ Composed
                                       [ SQL "PRIMARY KEY (";
                                         join ", " (map (fun k => Identifier [k]) pf);
                                         SQL ")" ] ]
                               end);
                    SQL ");" ].
Proof.
  intros im name schema ie stmt H pf. unfold create_table_stmt in H.
  fold pf in H.
  destruct (mapM (coldef_of im pf) (columns schema)) as [cds|e]; [|discriminate].
  exists cds. split; [reflexivity|]. cbn [bind] in H.
  destruct pf as [|k ks]; cbn [map] in H.
  - cbn [bind] in H. rewrite format_create_table in H. inversion H.
    rewrite app_nil_r. reflexivity.
  - rewrite format_primary_key in H. cbn [bind] in H.
    rewrite format_create_table in H. inversion H. reflexivity.
Qed.

Lemma keyword_allowed :
  forall _int_map s, In s ddl_keywords -> raw_allowed _int_map s.
Proof. intros im s H. left. exact H. Qed.

Lemma coldef_raw_allowed :
  forall _int_map col native,
    In native (map snd _type_map) \/ In native (map snd _int_map) ->
    Forall (raw_allowed _int_map)
      (raw_parts
         (Composed
            ([Identifier [name col]; SQL " "; SQL native]
               ++ (if notnull col then [SQL " NOT NULL"] else [])
               ++ match default col with
                  | PStr d =>
                      if truthy (PStr d)
                      then [SQL " DEFAULT "; Identifier [d]] else []
                  | _ => []
                  end
               ++ (if truthy (autoinc col) then [SQL " SERIAL"] else [])))).
Proof.
  intros im col native Hin.
  assert (Hsp : raw_allowed im " ")
    by (apply keyword_allowed; unfold ddl_keywords; do 4 right; left; reflexivity).
  assert (Hnn : raw_allowed im " NOT NULL")
    by (apply keyword_allowed; unfold ddl_keywords; do 5 right; left; reflexivity).
  assert (Hdf : raw_allowed im " DEFAULT ")
    by (apply keyword_allowed; unfold ddl_keywords; do 6 right; left; reflexivity).
  assert (Hse : raw_allowed im " SERIAL")
    by (apply keyword_allowed; unfold ddl_keywords; do 7 right; left; reflexivity).
  assert (Hna : raw_allowed im native) by (right; exact Hin).
  cbn [raw_parts]. rewrite !flat_map_app.
  apply Forall_app. split.
  { cbn [flat_map raw_parts app]. constructor; [exact Hsp|].
    constructor; [exact Hna|constructor]. }
  apply Forall_app. split.
  { destruct (notnull col); cbn [flat_map raw_parts app];
      [constructor; [exact Hnn|constructor]|constructor]. }
  apply Forall_app. split.
  { destruct (default col) as [| | |d]; try constructor.
    destruct (truthy (PStr d)); cbn [flat_map raw_parts app];
      [constructor; [exact Hdf|constructor]|constructor]. }
  destruct (truthy (autoinc col)); cbn [flat_map raw_parts app];
    [constructor; [exact Hse|constructor]|constructor].
Qed.

Lemma mapM_coldef_of :
  forall _int_map pf cols coldefs,
    mapM (coldef_of _int_map pf) cols = Ok coldefs ->
    exists natives,
      Forall2 (fun col native =>
                 resolve_type _int_map col = Ok (TSql (SQL native)))
              cols natives
      /\ map as_string coldefs
         = map (fun cn => coldef_text (fst cn) (snd cn)) (combine cols natives)
      /\ flat_map quoted_names coldefs = flat_map coldef_names cols
      /\ Forall (fun c => Forall (raw_allowed _int_map) (raw_parts c)) coldefs.
Proof.
  intros im pf cols. induction cols as [|col cols IH]; intros cds H; cbn [mapM] in H.
  - inversion H. exists []. split; [constructor|]. split; [reflexivity|].
    split; [reflexivity|constructor].
  - destruct (coldef_of im pf col) as [cd|e] eqn:Ec; [|discriminate].
    cbn [bind] in H.
    destruct (mapM (coldef_of im pf) cols) as [cds'|e]; [|discriminate].
    cbn [bind] in H. inversion H; subst cds. clear H.
    destruct (IH cds' eq_refl) as (natives & Hf & Ht & Hn & Hr).
    destruct (coldef_of_rendering im pf col cd Ec) as (native & Hres & Htxt & Hnm).
    destruct (coldef_of_shape im pf col cd Ec) as (native' & Hres' & Hin & Hcd).
    exists (native :: natives). split; [constructor; assumption|].
    split.
    { cbn [map combine fst snd]. rewrite Htxt, Ht. reflexivity. }
    split.
    { cbn [flat_map]. rewrite Hnm, Hn. reflexivity. }
    constructor; [|exact Hr].
    rewrite Hcd. apply coldef_raw_allowed. exact Hin.
Qed.

Lemma map_as_string_identifiers :
  forall l, map as_string (map (fun k => Identifier [k]) l) = map quote_ident l.
Proof.
  induction l as [|x l IH]; cbn [map]; [reflexivity|]. rewrite IH. reflexivity.
Qed.

(** X1.  The text of the statement [create_table] sends: the quoted table
    name, then the column definitions in column order and the PRIMARY KEY
    clause when there are primary fields, separated by commas. *)
Theorem create_table_stmt_text :
  forall _int_map name schema ignore_existing stmt,
    create_table_stmt _int_map name schema ignore_existing = Ok stmt ->
    exists natives,
      Forall2 (fun col native =>
                 resolve_type _int_map col = Ok (TSql (SQL native)))
              (columns schema) natives
      /\ as_string stmt
         = ("CREATE TABLE " ++ quote_ident name ++ " ("
              ++ String.concat ", "
                   (map (fun cn => coldef_text (fst cn) (snd cn))
                        (combine (columns schema) natives)
                      ++ primary_key_text (scan_primary (indexes schema) []))
              ++ ");")%string.
Proof.
  intros im name schema ie stmt H.
  destruct (create_table_stmt_shape im name schema ie stmt H) as (cds & Hm & ->).
  destruct (mapM_coldef_of im _ _ cds Hm) as (natives & Hf & Ht & _ & _).
  exists natives. split; [exact Hf|].
  rewrite !as_string_Composed_cons.
  change (as_string (Composed [])) with EmptyString.
  rewrite as_string_join, map_app, Ht.
  change (as_string (SQL "CREATE TABLE ")) with "CREATE TABLE "%string.
  change (as_string (Identifier [name])) with (quote_ident name).
  change (as_string (SQL " (")) with " ("%string.
  change (as_string (SQL ");")) with ");"%string.
  rewrite append_empty_r. do 4 f_equal.
  destruct (scan_primary (indexes schema) []) as [|k ks]; [reflexivity|].
  unfold primary_key_text. cbv beta iota. set (l := k :: ks).
  cbn [map]. f_equal.
  rewrite !as_string_Composed_cons.
  change (as_string (Composed [])) with EmptyString.
  rewrite as_string_join, append_empty_r, map_as_string_identifiers.
  reflexivity.
Qed.

(** X3.  The identifiers the statement quotes are the table name, then for
    each column its name and its default if it has one, then the primary
    fields. *)
Theorem create_table_stmt_names :
  forall _int_map name schema ignore_existing stmt,
    create_table_stmt _int_map name schema ignore_existing = Ok stmt ->
    quoted_names stmt
    = name :: flat_map coldef_names (columns schema)
           ++ scan_primary (indexes schema) [].
Proof.
  intros im name schema ie stmt H.
  destruct (create_table_stmt_shape im name schema ie stmt H) as (cds & Hm & ->).
  destruct (mapM_coldef_of im _ _ cds Hm) as (natives & _ & _ & Hn & _).
  cbn [quoted_names flat_map app]. rewrite quoted_names_join, app_nil_r.
  rewrite flat_map_app, Hn. f_equal. f_equal.
  destruct (scan_primary (indexes schema) []) as [|k ks]; [reflexivity|].
  cbn [flat_map quoted_names app]. rewrite quoted_names_join, !app_nil_r.
  generalize (k :: ks). intro l. induction l as [|x l IH]; [reflexivity|].
  cbn. rewrite IH. reflexivity.
Qed.

(** X4.  No raw text of the statement comes from the schema: every raw piece
    is one of the fixed keywords or a native type name of the type tables. *)
Theorem create_table_stmt_raw_text :
  forall _int_map name schema ignore_existing stmt,
    create_table_stmt _int_map name schema ignore_existing = Ok stmt ->
    Forall (raw_allowed _int_map) (raw_parts stmt).
Proof.
  intros im name schema ie stmt H.
  destruct (create_table_stmt_shape im name schema ie stmt H) as (cds & Hm & ->).
  destruct (mapM_coldef_of im _ _ cds Hm) as (natives & _ & _ & _ & Hr).
  assert (H0 : raw_allowed im "CREATE TABLE ")
    by (apply keyword_allowed; unfold ddl_keywords; left; reflexivity).
  assert (H1 : raw_allowed im " (")
    by (apply keyword_allowed; unfold ddl_keywords; do 1 right; left; reflexivity).
  assert (H2 : raw_allowed im ");")
    by (apply keyword_allowed; unfold ddl_keywords; do 2 right; left; reflexivity).
  assert (H3 : raw_allowed im ", ")
    by (apply keyword_allowed; unfold ddl_keywords; do 3 right; left; reflexivity).
  assert (H8 : raw_allowed im "PRIMARY KEY (")
    by (apply keyword_allowed; unfold ddl_keywords; do 8 right; left; reflexivity).
  assert (H9 : raw_allowed im ")")
    by (apply keyword_allowed; unfold ddl_keywords; do 9 right; left; reflexivity).
  cbn [raw_parts flat_map app]. rewrite ?app_nil_r.
  constructor; [exact H0|]. constructor; [exact H1|].
  apply Forall_app. split; [|constructor; [exact H2|constructor]].
  apply raw_parts_join; [exact H3|].
  apply Forall_app. split; [exact Hr|].
  destruct (scan_primary (indexes schema) []) as [|k ks]; constructor;
    [|constructor].
  cbn [raw_parts flat_map app]. rewrite ?app_nil_r.
  constructor; [exact H8|].
  apply Forall_app. split; [|constructor; [exact H9|constructor]].
  apply raw_parts_join; [exact H3|].
  generalize (k :: ks). intro l.
  induction l as [|x l IH]; cbn [map]; constructor; [constructor|exact IH].
Qed.

(** X1, an instance. *)
Lemma create_table_stmt_text_witness :
  exists stmt natives,
    create_table_stmt [] "people" people_table false = Ok stmt
    /\ natives = ["bigint"; "text"]
    /\ as_string stmt
       = ("CREATE TABLE " ++ quote_ident "people" ++ " ("
            ++ String.concat ", "
                 (map (fun cn => coldef_text (fst cn) (snd cn))
                      (combine (columns people_table) natives)
                    ++ primary_key_text (scan_primary (indexes people_table) []))
            ++ ");")%string.
Proof.
  destruct (create_table_stmt_text [] "people" people_table false _ eq_refl)
    as (natives & Hf & Ht).
  eexists. exists natives. split; [reflexivity|]. split; [|exact Ht].
  inversion Hf as [|? n1 ? l1 H1 Hf1]; subst.
  inversion Hf1 as [|? n2 ? l2 H2 Hf2]; subst.
  inversion Hf2; subst.
  inversion H1. inversion H2. reflexivity.
Defined.

(** X2, an instance. *)
Lemma coldef_of_text_witness :
  exists cd native,
    coldef_of [] ["id"]
      (mkCol "id" INTEGER (PBool true) None true false PNone None) = Ok cd
    /\ resolve_type []
         (mkCol "id" INTEGER (PBool true) None true false PNone None)
       = Ok (TSql (SQL native))
    /\ as_string cd
       = coldef_text (mkCol "id" INTEGER (PBool true) None true false PNone None)
                     native
    /\ quoted_names cd = ["id"].
Proof.
  destruct (coldef_of_text [] ["id"]
              (mkCol "id" INTEGER (PBool true) None true false PNone None)
              _ eq_refl) as (native & Hr & Ht & Hn).
  eexists. exists native. split; [reflexivity|]. split; [exact Hr|].
  split; [exact Ht|exact Hn].
Defined.

(** X3, an instance. *)
Lemma create_table_stmt_names_witness :
  exists stmt,
    create_table_stmt [] "people" people_table false = Ok stmt
    /\ quoted_names stmt = ["people"; "id"; "nick"; "anon"; "id"].
Proof.
  eexists. split; [reflexivity|].
  exact (create_table_stmt_names [] "people" people_table false _ eq_refl).
Defined.

(** X4, an instance. *)
Lemma create_table_stmt_raw_text_witness :
  exists stmt,
    create_table_stmt [] "people" people_table false = Ok stmt
    /\ Forall (raw_allowed []) (raw_parts stmt).
Proof.
  eexists. split; [reflexivity|].
  exact (create_table_stmt_raw_text [] "people" people_table false _ eq_refl).
Defined.

(** *** Columns that cannot be created *)

Lemma mapM_raises_in :
  forall (A B : Type) (f : A -> result B) l x,
    In x l -> (exists e, f x = Raise e) -> exists e, mapM f l = Raise e.
Proof.
  intros A B f l x. induction l as [|y l IH]; intros Hin Hx; [destruct Hin|].
  cbn [mapM]. destruct (f y) as [b|e] eqn:Ey; [|eexists; reflexivity].
  cbn [bind]. destruct Hin as [->|Hin].
  - destruct Hx as [e He]. congruence.
  - destruct (IH Hin Hx) as [e ->]. eexists; reflexivity.
Qed.

Lemma unrenderable_not_renders :
  forall _int_map col, unrenderable_text col -> renders _int_map col = false.
Proof.
  intros im col [Ht Hc].
  destruct (renders im col) eqn:E; [|reflexivity]. exfalso.
  apply renders_iff in E as (Hp & Hs & _).
  destruct Hc as [(c & Hc & Hd)|Hz].
  - unfold postgres_text_custom in Hp. rewrite Hc, Ht, Hd in Hp. discriminate Hp.
  - rewrite Hz, Ht in Hs. discriminate Hs.
Qed.

(** X5.  A table with a TEXT column that has a size, or that carries
    postgres custom info, cannot be created: [create_table] raises before any
    statement is sent.  What it raises is the [TypeError] or the
    [AssertionError] of a column that cannot be rendered, unless the loop
    meets a misplaced [autoinc] first, which gives [SchemaError]. *)
Theorem create_table_unrenderable :
  forall _int_map self_create_indexes name schema ignore_existing
         create_indexes tr col,
    In col (columns schema) ->
    unrenderable_text col ->
    exists e,
      create_table _int_map self_create_indexes name schema ignore_existing
                   create_indexes tr
      = (Raise e, tr)
      /\ loop_error e
      /\ ((forall c, In c (columns schema) ->
                     autoinc_misplaced (scan_primary (indexes schema) []) c
                     = false) ->
          (exists msg, e = TypeError msg)
          \/ (exists msg, e = AssertionError msg)).
Proof.
  intros im ci name schema ie cidx tr col Hin Hu.
  assert (Hc : exists e,
             coldef_of im (scan_primary (indexes schema) []) col = Raise e).
  { pose proof (unrenderable_not_renders im col Hu) as Hr.
    unfold renders in Hr. unfold coldef_of.
    destruct (coldef_base im col) as [cd|e]; [discriminate|].
    eexists; reflexivity. }
  destruct (mapM_raises_in _ _ _ _ _ Hin Hc) as [e He].
  exists e. split.
  { unfold create_table, create_table_stmt. rewrite He. reflexivity. }
  destruct (mapM_raise_split _ _ _ _ _ He) as (pre & c & post & Hcols & _ & Hx).
  destruct (coldef_of_raise im _ c e Hx) as [Hl Hs].
  split; [exact Hl|].
  intros Hnone.
  destruct Hl as [Ht|[Ha|[msg ->]]]; [left; exact Ht|right; exact Ha|].
  exfalso. destruct (Hs msg eq_refl) as (_ & Hm & _).
  rewrite Hnone in Hm; [discriminate|].
  rewrite Hcols. apply in_or_app. right. left. reflexivity.
Qed.

(** X5, an instance: [accounts] has the column [email], TEXT of size 255. *)
Lemma create_table_unrenderable_witness :
  exists e,
    create_table [] (fun _ _ => db_ret tt) "accounts" accounts_table false true []
    = (Raise e, [])
    /\ loop_error e.
Proof.
  destruct (create_table_unrenderable [] (fun _ _ => db_ret tt) "accounts"
              accounts_table false true []
              (mkCol "email" TEXT (PBool false) (Some 255%Z) true false PNone None))
    as (e & He & Hl & _).
  - right. left. reflexivity.
  - split; [reflexivity|]. right. reflexivity.
  - exists e. split; [exact He|exact Hl].
Defined.

(** *** The order of the index set *)

Lemma scan_primary_filter :
  forall idxs pf,
    scan_primary idxs pf
    = fold_left (fun _ idx => map fname (fields idx)) (filter primary idxs) pf.
Proof.
  unfold scan_primary. induction idxs as [|i idxs IH]; intros pf; cbn [fold_left filter].
  - reflexivity.
  - destruct (primary i); cbn [fold_left]; apply IH.
Qed.

Lemma Permutation_short_eq :
  forall (A : Type) (l l' : list A),
    Permutation l l' -> (List.length l <= 1)%nat -> l = l'.
Proof.
  intros A l l' H Hlen. destruct l as [|x [|y l]].
  - apply Permutation_nil in H. congruence.
  - apply Permutation_length_1_inv in H. congruence.
  - cbn in Hlen. lia.
Qed.

Lemma filter_Permutation :
  forall (A : Type) (f : A -> bool) (l l' : list A),
    Permutation l l' -> Permutation (filter f l) (filter f l').
Proof.
  intros A f l l' H. induction H; cbn [filter].
  - constructor.
  - destruct (f x); [constructor|]; assumption.
  - destruct (f x), (f y); try apply Permutation_refl.
    apply perm_swap.
  - eapply Permutation_trans; eassumption.
Qed.

(** X6.  The index set has no order of its own: as long as at most one
    index is primary, the primary fields, and with them the statement
    [create_table] builds, are the same in whatever order the indexes are
    visited. *)
Theorem create_table_index_order :
  forall _int_map name cols idxs idxs' ignore_existing,
    Permutation idxs idxs' ->
    at_most_one_primary idxs ->
    scan_primary idxs [] = scan_primary idxs' []
    /\ create_table_stmt _int_map name (mkTable cols idxs) ignore_existing
       = create_table_stmt _int_map name (mkTable cols idxs') ignore_existing.
Proof.
  intros im name cols idxs idxs' ie Hp H1.
  assert (E : scan_primary idxs [] = scan_primary idxs' []).
  { rewrite !scan_primary_filter.
    rewrite (Permutation_short_eq _ _ _ (filter_Permutation _ primary _ _ Hp) H1).
    reflexivity. }
  split; [exact E|].
  unfold create_table_stmt. cbn [indexes columns]. rewrite E. reflexivity.
Qed.

(** X6, an instance: the two indexes of [people] swapped. *)
Lemma create_table_index_order_witness :
  create_table_stmt [] "people" people_table false
  = create_table_stmt [] "people"
      (mkTable (columns people_table) (rev (indexes people_table))) false.
Proof.
  apply (create_table_index_order [] "people" (columns people_table)
           (indexes people_table) (rev (indexes people_table)) false).
  - apply Permutation_rev.
  - unfold at_most_one_primary. cbn. lia.
Defined.

(* ================================================================== *)
(** ** Index creation: what the statement consists of *)
(* ================================================================== *)

Lemma map_as_string_index_fields :
  forall fs, map as_string (map index_field_sql fs) = map index_field_text fs.
Proof.
  induction fs as [|f fs IH]; cbn [map]; [reflexivity|]. rewrite IH. f_equal.
  unfold index_field_sql, index_field_text. destruct (prefix_len f); reflexivity.
Qed.

Lemma quoted_names_index_fields :
  forall fs,
    flat_map quoted_names (map index_field_sql fs)
    = map fname (filter plain_field fs).
Proof.
  induction fs as [|f fs IH]; cbn [map flat_map filter]; [reflexivity|].
  rewrite IH. unfold index_field_sql, plain_field.
  destruct (prefix_len f); reflexivity.
Qed.

(** X7.  The text of the statement [_create_index] sends, for every index:
    the keywords, the quoted index and table names, and the field list, in
    which a field with a prefix length stands as [name(len)], unquoted. *)
Theorem create_index_stmt_text :
  forall table_name index_name idx,
  exists stmt,
    _create_index_stmt table_name index_name idx = Ok stmt
    /\ as_string stmt
       = ("CREATE " ++ (if unique idx then "UNIQUE " else EmptyString)
            ++ "INDEX " ++ quote_ident index_name
            ++ " ON " ++ quote_ident table_name
            ++ " (" ++ String.concat ", " (map index_field_text (fields idx))
            ++ ")")%string.
Proof.
  intros. eexists. split; [apply create_index_stmt_shape|].
  rewrite !as_string_Composed_cons.
  change (as_string (Composed [])) with EmptyString.
  rewrite as_string_join, map_as_string_index_fields, append_empty_r.
  reflexivity.
Qed.

(** X8.  In the statement of [_create_index] the index name and the table
    name are always quoted, and a field name is quoted exactly when the field
    has no prefix length. *)
Theorem create_index_stmt_names :
  forall table_name index_name idx,
  exists stmt,
    _create_index_stmt table_name index_name idx = Ok stmt
    /\ quoted_names stmt
       = index_name :: table_name
           :: map fname (filter plain_field (fields idx)).
Proof.
  intros. eexists. split; [apply create_index_stmt_shape|].
  cbn [quoted_names flat_map app]. rewrite quoted_names_join, app_nil_r.
  rewrite quoted_names_index_fields. reflexivity.
Qed.

(* ================================================================== *)
(** ** The upsert clause: when it is built, and from what *)
(* ================================================================== *)



Section UpsertMore.
Variable self_primary_fields : string -> list string.


(** X10.  Whatever [_upsert_sql] returns, the statement is the insert
    statement followed by an ON CONFLICT clause, and the parameters are the
    insert parameters, unchanged and alone. *)
Theorem upsert_sql_extends_insert :
  forall table inssql insvals setsql setvals stmt vals,
    _upsert_sql self_primary_fields table inssql insvals setsql setvals
    = Ok (stmt, vals) ->
    vals = insvals
    /\ exists clause, stmt = (inssql ++ " ON CONFLICT (" ++ clause)%string.
Proof.
  intros * H. unfold _upsert_sql in H.
  destruct setvals as [|v vs].
  - destruct (self_primary_fields table) as [|f0 rest]; inversion H.
    split; [reflexivity|]. eexists; reflexivity.
  - destruct (str_join ", " (v :: vs)) as [target|]; cbn [bind] in H;
      inversion H.
    split; [reflexivity|]. eexists; reflexivity.
Qed.
End UpsertMore.

(** X10, an instance. *)
Lemma upsert_sql_extends_insert_witness :
  exists clause,
    _upsert_sql (fun _ => ["id"]) "t" "INSERT INTO t (id) VALUES (%s)" [PInt 1]
                EmptyString []
    = Ok (("INSERT INTO t (id) VALUES (%s)" ++ " ON CONFLICT (" ++ clause)%string,
          [PInt 1]).
Proof.
  destruct (upsert_sql_extends_insert (fun _ => ["id"]) "t"
              "INSERT INTO t (id) VALUES (%s)" [PInt 1] EmptyString []
              _ _ eq_refl) as [Hv [clause Hc]].
  exists ("id) DO NOTHING")%string. reflexivity.
Defined.

(* ================================================================== *)
(** ** Normalisation: what it keeps and what it sets *)
(* ================================================================== *)

Lemma simplify_col_normalised :
  forall pf c, normalised_from c (simplify_col pf c).
Proof.
  intros pf c. unfold normalised_from.
  rewrite simplify_col_name, simplify_col_typ, simplify_col_autoinc,
    simplify_col_fixed, simplify_col_default, simplify_col_custom,
    simplify_col_size, simplify_col_notnull.
  repeat split. intros ->. apply orb_true_r.
Qed.

Lemma simplify_tables_normalised :
  forall m pf, Forall2 entry_normalised_from m (simplify_tables pf m).
Proof.
  induction m as [|[nam tab] m IH]; intros pf; cbn [simplify_tables].
  - constructor.
  - constructor; [|apply IH].
    split; [reflexivity|]. split; [reflexivity|]. cbn [snd columns].
    induction (columns tab) as [|c cs IHc]; cbn [map]; constructor;
      [apply simplify_col_normalised|exact IHc].
Qed.

(** X11.  Normalisation keeps the tables and their order, the index set of
    each table, and the columns with their order; of a column it keeps
    everything but [size] and [notnull]; it sets [size] to 8 on an INTEGER
    column without one and leaves every other size alone; it never switches
    [notnull] off. *)
Theorem simplify_model_normalised :
  forall m : DbModel,
    is_dict m ->
    Forall2 entry_normalised_from m (simplify_model m).
Proof.
  intros m H. rewrite (simplify_model_tables m H).
  apply simplify_tables_normalised.
Qed.

(** X11, an instance. *)
Lemma simplify_model_normalised_witness :
  Forall2 entry_normalised_from sample_model (simplify_model sample_model).
Proof. exact (simplify_model_normalised sample_model sample_model_is_dict). Defined.

(** X12.  After normalisation every INTEGER column has a size that counts as
    set, in every table. *)
Theorem simplify_model_integer_sized :
  forall (m : DbModel) nam tab c,
    is_dict m ->
    In (nam, tab) (simplify_model m) ->
    In c (columns tab) ->
    typ c = INTEGER ->
    truthy_int (size c) = true.
Proof.
  intros m nam tab c Hd Hin Hc Ht.
  assert (HF : Forall2 entry_normalised_from m (simplify_model m))
    by (rewrite (simplify_model_tables m Hd); apply simplify_tables_normalised).
  clear Hd.
  revert Hin. generalize dependent (simplify_model m). intros m' HF Hin.
  induction HF as [|e e' l l' He _ IH]; [destruct Hin|].
  destruct Hin as [->|Hin]; [|exact (IH Hin)].
  destruct He as [_ [_ Hcols]]. cbn [snd] in Hcols. clear IH.
  induction Hcols as [|c0 c0' cs cs' Hn _ IHc]; [destruct Hc|].
  destruct Hc as [->|Hc]; [|exact (IHc Hc)].
  destruct Hn as (_ & Hty & _ & _ & _ & _ & Hsz & _).
  rewrite Hsz. rewrite Hty in Ht. rewrite Ht. cbn [DbType_eqb andb].
  destruct (truthy_int (size c0)) eqn:E; cbn [negb]; [exact E|reflexivity].
Qed.

(** X12, an instance: the unsized [id] of [accounts]. *)
Lemma simplify_model_integer_sized_witness :
  let tab := mkTable (map (simplify_col ["id"]) (columns accounts_table))
                     (indexes accounts_table) in
  let c := mkCol "id" INTEGER (PBool true) (Some 8%Z) true false PNone None in
  In ("accounts", tab) (simplify_model sample_model)
  /\ In c (columns tab)
  /\ truthy_int (size c) = true.
Proof.
  intros tab c.
  assert (H1 : In ("accounts", tab) (simplify_model sample_model))
    by (left; reflexivity).
  assert (H2 : In c (columns tab)) by (left; reflexivity).
  split; [exact H1|]. split; [exact H2|].
  exact (simplify_model_integer_sized sample_model "accounts" tab c
           sample_model_is_dict H1 H2 eq_refl).
Defined.

(** X13.  A table that has a primary index of its own is normalised with
    the fields of that index, wherever it stands in the model: each of its
    columns ends up with [notnull] set exactly when it was set before or the
    column is one of those fields. *)
Theorem simplify_model_own_primary :
  forall (m : DbModel) nam tab,
    is_dict m ->
    In (nam, tab) m ->
    existsb primary (indexes tab) = true ->
    let pf := scan_primary (indexes tab) [] in
    In (nam, mkTable (map (simplify_col pf) (columns tab)) (indexes tab))
       (simplify_model m)
    /\ map notnull (map (simplify_col pf) (columns tab))
       = map (fun c => str_in (name c) pf || notnull c) (columns tab).
Proof.
  intros m nam tab Hd Hin Hp pf. split.
  - rewrite (simplify_model_tables m Hd).
    destruct (simplify_tables_in m [] nam tab Hin) as [pf0 H].
    rewrite (scan_primary_overrides _ pf0 [] Hp) in H. exact H.
  - rewrite map_map. apply map_ext. intro c. apply simplify_col_notnull.
Qed.

(** X13, an instance: [accounts] in the sample model. *)
Lemma simplify_model_own_primary_witness :
  In ("accounts",
      mkTable (map (simplify_col ["id"]) (columns accounts_table))
              (indexes accounts_table))
     (simplify_model sample_model)
  /\ map notnull (map (simplify_col ["id"]) (columns accounts_table))
     = [true; true].
Proof.
  exact (simplify_model_own_primary sample_model "accounts" accounts_table
           sample_model_is_dict (or_introl eq_refl) eq_refl).
Defined.

(** X14.  A column is left as it is by the column step exactly when it is
    already in normal form for the primary fields in force: sized if it is an
    INTEGER, and not nullable if it is one of the primary fields. *)
Theorem simplify_col_fixpoint_iff :
  forall pf c,
    simplify_col pf c = c
    <-> (typ c = INTEGER -> truthy_int (size c) = true)
        /\ (str_in (name c) pf = true -> notnull c = true).
Proof.
  intros pf c. split.
  - intro H. split.
    + intro Ht. rewrite <- H, simplify_col_size, Ht. cbn [DbType_eqb andb].
      destruct (truthy_int (size c)) eqn:E; cbn [negb]; [exact E|reflexivity].
    + intro Hn. rewrite <- H, simplify_col_notnull, Hn. reflexivity.
  - intros [Hs Hn]. apply DbCol_ext.
    + apply simplify_col_name.
    + apply simplify_col_typ.
    + apply simplify_col_autoinc.
    + rewrite simplify_col_size.
      destruct (DbType_eqb (typ c) INTEGER) eqn:Et; cbn [andb]; [|reflexivity].
      apply DbType_eqb_eq in Et. rewrite (Hs Et). reflexivity.
    + rewrite simplify_col_notnull.
      destruct (str_in (name c) pf); cbn [orb]; [|reflexivity].
      symmetry. apply Hn. reflexivity.
    + apply simplify_col_fixed.
    + apply simplify_col_default.
    + apply simplify_col_custom.
Qed.

(* ================================================================== *)
(** ** Introspection: the native type names that are recognised *)
(* ================================================================== *)

















(** The two type tables, one against the other. *)
Lemma type_map_inverse_spec :
  forall t native,
    dict_get DbType_eqb _type_map t = Some native
    <-> dict_get String.eqb _type_map_inverse native = Some t.
Proof.
  intros t native. split.
  - intro H. destruct t; inversion H; reflexivity.
  - change _type_map_inverse
      with [ ("text", TEXT); ("bytea", BLOB); ("bigint", INTEGER);
             ("boolean", BOOLEAN); ("real", FLOAT);
             ("double precision", DOUBLE); (EmptyString, ANY) ].
    cbn [dict_get]. intro H.
    repeat match type of H with
           | (if String.eqb ?k native then _ else _) = _ =>
               let E := fresh "E" in
               destruct (String.eqb k native) eqn:E;
               [apply String.eqb_eq in E; subst native; inversion H;
                reflexivity|]
           end.
    discriminate H.
Qed.

(** X19.  The inverse type table is the inverse of the type table: a native
    name is the default name of an abstract type exactly when the inverse
    table maps it back to that type. *)
Theorem type_map_inverse_iff :
  forall t native,
    dict_get DbType_eqb _type_map t = Some native
    <-> dict_get String.eqb _type_map_inverse native = Some t.
Proof. exact type_map_inverse_spec. Qed.

(* ================================================================== *)
(** ** Connection options *)
(* ================================================================== *)

Lemma dict_get_set_same :
  forall (V : Type) (d : list (string * V)) k v,
    dict_get String.eqb (dict_set String.eqb d k v) k = Some v.
Proof.
  intros V d k v. induction d as [|[k' v'] d IH]; cbn [dict_set dict_get].
  - rewrite String.eqb_refl. reflexivity.
  - destruct (String.eqb k' k) eqn:E; cbn [dict_get]; rewrite E;
      [reflexivity|exact IH].
Qed.

Lemma dict_get_set_other :
  forall (V : Type) (d : list (string * V)) k v k',
    k' <> k ->
    dict_get String.eqb (dict_set String.eqb d k v) k' = dict_get String.eqb d k'.
Proof.
  intros V d k v k' Hne. induction d as [|[k0 v0] d IH]; cbn [dict_set dict_get].
  - destruct (String.eqb k k') eqn:E; [|reflexivity].
    apply String.eqb_eq in E. congruence.
  - destruct (String.eqb k0 k) eqn:E; cbn [dict_get].
    + apply String.eqb_eq in E. subst k0.
      destruct (String.eqb k k') eqn:E'; [|reflexivity].
      apply String.eqb_eq in E'. congruence.
    + rewrite IH. reflexivity.
Qed.

Lemma dict_set_keys :
  forall (V : Type) (d : list (string * V)) k v,
    map fst (dict_set String.eqb d k v)
    = if dict_contains String.eqb d k then map fst d else map fst d ++ [k].
Proof.
  intros V d k v. unfold dict_contains.
  induction d as [|[k' v'] d IH]; cbn [dict_set dict_get map fst app].
  - reflexivity.
  - destruct (String.eqb k' k) eqn:E; cbn [map fst].
    + reflexivity.
    + rewrite IH. destruct (dict_get String.eqb d k); reflexivity.
Qed.

Section UriAdjustFacts.
Variable g : module_globals.
Variable py_int : pyval -> result pyval.
Variable parse_bool : string -> pyval -> result pyval.

Lemma uri_adjust_options_spec :
  forall opts kws r kws',
    NoDup (map fst opts) ->
    uri_adjust_options g py_int parse_bool opts kws = (r, kws') ->
    map fst kws' = map fst kws
    /\ (forall k, ~ In k (map fst opts) ->
                  dict_get String.eqb kws' k = dict_get String.eqb kws k)
    /\ (r = Ok tt ->
        forall nam typ,
          In (nam, typ) opts ->
          match dict_get String.eqb kws nam with
          | Some v =>
              exists v',
                uri_convert g py_int parse_bool nam typ v = Ok v'
                /\ dict_get String.eqb kws' nam = Some v'
          | None => dict_get String.eqb kws' nam = None
          end).
Proof.
  induction opts as [|[nam0 typ0] opts IH]; intros kws r kws' Hnd H;
    cbn [uri_adjust_options] in H.
  - inversion H; subst. split; [reflexivity|]. split; [reflexivity|].
    intros _ nam typ [].
  - cbn [map fst] in Hnd. inversion Hnd as [|? ? Hnotin Hnd']; subst.
    destruct (dict_get String.eqb kws nam0) as [v|] eqn:Eg.
    + destruct (uri_convert g py_int parse_bool nam0 typ0 v) as [v'|e] eqn:Ec.
      * destruct (IH _ _ _ Hnd' H) as (Hk & Hf & Hc).
        split.
        { rewrite Hk, dict_set_keys. unfold dict_contains. rewrite Eg.
          reflexivity. }
        split.
        { intros k Hnk. rewrite Hf by (intro; apply Hnk; right; assumption).
          apply dict_get_set_other. intro; apply Hnk; left; cbn; congruence. }
        intros Hr nam typ [Heq|Hin].
        { inversion Heq; subst nam typ. rewrite Eg. exists v'.
          split; [exact Ec|]. rewrite (Hf nam0 Hnotin).
          apply dict_get_set_same. }
        { assert (Hne : nam <> nam0).
          { intro; subst nam. apply Hnotin.
            change nam0 with (fst (nam0, typ)). apply in_map. exact Hin. }
          specialize (Hc Hr nam typ Hin).
          rewrite (dict_get_set_other _ kws nam0 v' nam Hne) in Hc. exact Hc. }
      * inversion H; subst. split; [reflexivity|]. split; [reflexivity|].
        discriminate.
    + destruct (IH _ _ _ Hnd' H) as (Hk & Hf & Hc).
      split; [exact Hk|]. split.
      { intros k Hnk. apply Hf. intro; apply Hnk; right; assumption. }
      intros Hr nam typ [Heq|Hin].
      { inversion Heq; subst nam typ. rewrite Eg.
        rewrite (Hf nam0 Hnotin). exact Eg. }
      { exact (Hc Hr nam typ Hin). }
Qed.

Lemma uri_options_nodup : NoDup (map fst uri_options).
Proof.
  unfold uri_options. cbn [map fst].
  repeat constructor; cbn [In]; intuition discriminate.
Qed.

Lemma host_not_option : ~ In "host" (map fst uri_options).
Proof. unfold uri_options. cbn [map fst In]. intuition discriminate. Qed.

(** X20.  What [uri_adjust] does with the positional arguments: when it
    returns they are emptied, and the first of them, if there was one, has
    become the [host] option, replacing a [host] given by keyword; when a
    conversion raises they are left as they were and [host] is untouched. *)
Theorem uri_adjust_host :
  forall args kws r args' kws',
    uri_adjust g py_int parse_bool args kws = (r, (args', kws')) ->
    match r with
    | Ok _ =>
        args' = []
        /\ dict_get String.eqb kws' "host"
           = match args with
             | a0 :: _ => Some a0
             | [] => dict_get String.eqb kws "host"
             end
    | Raise _ =>
        args' = args
        /\ dict_get String.eqb kws' "host" = dict_get String.eqb kws "host"
    end.
Proof.
  intros args kws r args' kws' H. unfold uri_adjust in H.
  destruct (uri_adjust_options g py_int parse_bool uri_options kws)
    as [[[]|e] kws1] eqn:E;
    destruct (uri_adjust_options_spec _ _ _ _ uri_options_nodup E)
      as (_ & Hf & _).
  - destruct args as [|a0 rest]; inversion H; subst.
    + split; [reflexivity|]. apply Hf. exact host_not_option.
    + split; [reflexivity|]. apply dict_get_set_same.
  - inversion H; subst. split; [reflexivity|]. apply Hf. exact host_not_option.
Qed.

(** X21.  [uri_adjust] removes and reorders nothing: the options keep their
    order, [host] is added at the end when it comes from a positional
    argument and was not there, and every option other than [host] and the
    four converted ones keeps its value, whether the call returns or
    raises. *)
Theorem uri_adjust_frame :
  forall args kws r args' kws',
    uri_adjust g py_int parse_bool args kws = (r, (args', kws')) ->
    (exists tail, map fst kws' = map fst kws ++ tail
                  /\ (tail = [] \/ tail = ["host"]))
    /\ forall k,
        k <> "host" -> ~ In k (map fst uri_options) ->
        dict_get String.eqb kws' k = dict_get String.eqb kws k.
Proof.
  intros args kws r args' kws' H. unfold uri_adjust in H.
  destruct (uri_adjust_options g py_int parse_bool uri_options kws)
    as [[[]|e] kws1] eqn:E;
    destruct (uri_adjust_options_spec _ _ _ _ uri_options_nodup E)
      as (Hk & Hf & _).
  - destruct args as [|a0 rest]; inversion H; subst.
    + split; [exists []; rewrite app_nil_r; split; [exact Hk|left; reflexivity]|].
      intros k _ Hn. apply Hf. exact Hn.
    + split.
      * rewrite dict_set_keys, Hk.
        destruct (dict_contains String.eqb kws1 "host").
        -- exists []. rewrite app_nil_r. split; [reflexivity|left; reflexivity].
        -- exists ["host"]. split; [reflexivity|right; reflexivity].
      * intros k Hh Hn. rewrite dict_get_set_other by exact Hh.
        apply Hf. exact Hn.
  - inversion H; subst.
    split; [exists []; rewrite app_nil_r; split; [exact Hk|left; reflexivity]|].
    intros k _ Hn. apply Hf. exact Hn.
Qed.

(** When [uri_adjust] returns, each of the four options that was given
    holds its converted value, converted once; an option that was not given
    is still absent. *)
Lemma uri_adjust_converted :
  forall args kws args' kws' nam typ,
    uri_adjust g py_int parse_bool args kws = (Ok tt, (args', kws')) ->
    In (nam, typ) uri_options ->
    match dict_get String.eqb kws nam with
    | Some v =>
        exists v',
          uri_convert g py_int parse_bool nam typ v = Ok v'
          /\ dict_get String.eqb kws' nam = Some v'
    | None => dict_get String.eqb kws' nam = None
    end.
Proof.
  intros args kws args' kws' nam typ H Hin. unfold uri_adjust in H.
  destruct (uri_adjust_options g py_int parse_bool uri_options kws)
    as [[[]|e] kws1] eqn:E; [|discriminate].
  destruct (uri_adjust_options_spec _ _ _ _ uri_options_nodup E)
    as (_ & _ & Hc).
  specialize (Hc eq_refl nam typ Hin).
  assert (Hne : nam <> "host").
  { intro; subst nam. apply host_not_option.
    change "host" with (fst ("host", typ)). apply in_map. exact Hin. }
  destruct args as [|a0 rest]; inversion H; subst.
  - exact Hc.
  - rewrite (dict_get_set_other _ kws1 "host" a0 nam Hne). exact Hc.
Qed.
End UriAdjustFacts.

(** X22.  In the module as it is, [uri_adjust] returns only when neither
    flag, [use_unicode] or [autocommit], was given: [port] and [pool_size],
    if given, then hold what [int] made of them, converted once, and are
    still absent if they were not given. *)
Theorem uri_adjust_converts :
  forall py_int parse_bool args kws args' kws',
    uri_adjust shipped_globals py_int parse_bool args kws
    = (Ok tt, (args', kws')) ->
    dict_get String.eqb kws "use_unicode" = None
    /\ dict_get String.eqb kws "autocommit" = None
    /\ forall nam,
        nam = "port" \/ nam = "pool_size" ->
        match dict_get String.eqb kws nam with
        | Some v =>
            exists v', py_int v = Ok v' /\ dict_get String.eqb kws' nam = Some v'
        | None => dict_get String.eqb kws' nam = None
        end.
Proof.
  intros py_int parse_bool args kws args' kws' H.
  pose proof (uri_adjust_converted shipped_globals py_int parse_bool
                args kws args' kws') as Hc.
  split; [|split].
  - specialize (Hc "use_unicode" ConvBool H).
    destruct (dict_get String.eqb kws "use_unicode") as [v|]; [|reflexivity].
    destruct Hc as [v' [Hv _]]; [cbn; tauto|]. discriminate Hv.
  - specialize (Hc "autocommit" ConvBool H).
    destruct (dict_get String.eqb kws "autocommit") as [v|]; [|reflexivity].
    destruct Hc as [v' [Hv _]]; [cbn; tauto|]. discriminate Hv.
  - intros nam [-> | ->].
    + apply (Hc "port" ConvInt H). cbn; tauto.
    + apply (Hc "pool_size" ConvInt H). cbn; tauto.
Qed.

(** X22, an instance: [port] holds what [int] made of it. *)
Lemma uri_adjust_converts_witness :
  exists kws',
    forall parse_bool,
      uri_adjust shipped_globals int_of_option parse_bool [] plain_kws
      = (Ok tt, ([], kws'))
      /\ dict_get String.eqb kws' "port" = Some (PInt 5432)
      /\ dict_get String.eqb plain_kws "autocommit" = None.
Proof.
  eexists. intros pb. split; [reflexivity|].
  destruct (uri_adjust_converts int_of_option pb [] plain_kws [] _ eq_refl)
    as (_ & Ha & Hn).
  split; [|exact Ha].
  destruct (Hn "port" (or_introl eq_refl)) as (v' & Hv & Hg).
  cbn in Hv. inversion Hv; subst v'. exact Hg.
Defined.



(** X20, an instance: the positional host replaces the keyword one. *)
Lemma uri_adjust_host_witness :
  exists kws',
    forall parse_bool,
      uri_adjust shipped_globals int_of_option parse_bool
                 [PStr "db.example"] plain_kws
      = (Ok tt, ([], kws'))
      /\ dict_get String.eqb kws' "host" = Some (PStr "db.example").
Proof.
  eexists. intros pb. split; [reflexivity|].
  apply (uri_adjust_host shipped_globals int_of_option pb
           [PStr "db.example"] plain_kws (Ok tt) [] _ eq_refl).
Defined.

(** X21, an instance: [user] is left alone. *)
Lemma uri_adjust_frame_witness :
  exists kws',
    forall parse_bool,
      uri_adjust shipped_globals int_of_option parse_bool
                 [PStr "db.example"] plain_kws
      = (Ok tt, ([], kws'))
      /\ dict_get String.eqb kws' "user" = Some (PStr "app").
Proof.
  eexists. intros pb. split; [reflexivity|].
  apply (uri_adjust_frame shipped_globals int_of_option pb
           [PStr "db.example"] plain_kws (Ok tt) [] _ eq_refl).
  - discriminate.
  - cbn. intuition discriminate.
Defined.

(* ================================================================== *)
(** ** Introspection: the indexes read from the catalog *)
(* ================================================================== *)













(** *** Reading back a well-formed index definition *)

















(* ================================================================== *)
(** ** Introspection: how far [table_model] and [model] get *)
(* ================================================================== *)

(** X28.  In the module as it is, [table_model] never returns: after its
    first query it reads the global name [defaultdict], which nothing binds,
    and raises [NameError], whatever the catalog holds. *)
Theorem table_model_name_error :
  forall int_of_str index_rows column_rows,
    table_model shipped_globals int_of_str index_rows column_rows
    = Raise (NameError "defaultdict").
Proof. reflexivity. Qed.



(** X30.  In the module as it is, [model] returns only for a database
    without tables, and then returns the empty model; with at least one table
    it raises the [NameError] of [table_model]. *)
Theorem model_name_error :
  forall int_of_str tabs index_rows_of column_rows_of,
    model shipped_globals int_of_str tabs index_rows_of column_rows_of
    = match tabs with
      | [] => Ok []
      | _ :: _ => Raise (NameError "defaultdict")
      end.
Proof. intros ios [|tab tabs] ir cr; reflexivity. Qed.

(* ================================================================== *)
(** ** Dropping an index *)
(* ================================================================== *)

(** [drop_index_by_name] never reaches the database: the read of its own
    local [sql] raises first. *)
Lemma drop_index_by_name_raises :
  forall table index_name tr,
    drop_index_by_name table index_name tr
    = (Raise (UnboundLocalError "sql"), tr).
Proof. reflexivity. Qed.

(* ================================================================== *)
(** ** Introspection: sized binary types and unknown names *)
(* ================================================================== *)




